(** * osde2e: the layered configuration loader, [pkg/common/load/load.go]

    A shallow embedding of the Go package [load] and the properties of its
    entry point [IntoObject].  The package fills a configuration struct in
    four passes: struct-tag defaults, bundled YAML overlays, an optional
    custom YAML overlay, and environment variables.

    Conventions of the embedding:
    - a Go [string] is a Rocq [string] (a sequence of bytes);
    - a Go [int]/[int64] is a [Z]; [strconv] is modelled for a 64-bit
      platform ([strconv.IntSize = 64]);
    - a value reached through [reflect] is a [Value]; struct fields are
      exported (settable), as the [reflect] setters require;
    - in-place mutation is explicit state passing: every operation returns
      the mutated value together with its [outcome];
    - the process environment, the working directory, the file system, the
      bundled files and the sources of randomness form a [World]. *)

From Stdlib Require Import ZArith Ascii String List Lia Bool.
From stdpp Require Import base option list strings gmap.

Local Open Scope Z_scope.
Set Warnings "-register-all".

(** ** Bytes and strings *)

Module Bytes.

(** [case '0' <= c && c <= '9': d = c - '0']: the value of a decimal digit,
    from the code of the byte. *)
Definition digit (c : ascii) : option Z :=
  let code := Z.of_N (N_of_ascii c) in
  if (48 <=? code) && (code <=? 57) then Some (code - 48) else None.

Definition is_digit (c : ascii) : bool :=
  match digit c with Some _ => true | None => false end.

Fixpoint all_digits (s : string) : bool :=
  match s with
  | EmptyString => true
  | String c s' => is_digit c && all_digits s'
  end.

Fixpoint no_digit (s : string) : bool :=
  match s with
  | EmptyString => true
  | String c s' => negb (is_digit c) && no_digit s'
  end.

(** [strings.HasPrefix(s, p)] together with the rest of [s] after [p]. *)
Fixpoint strip_prefix (p s : string) : option string :=
  match p, s with
  | EmptyString, _ => Some s
  | String a p', String b s' =>
      if Ascii.eqb a b then strip_prefix p' s' else None
  | String _ _, EmptyString => None
  end.

(** The longest run of decimal digits at the head of [s], and what follows. *)
Fixpoint span_digits (s : string) : string * string :=
  match s with
  | EmptyString => (EmptyString, EmptyString)
  | String c s' =>
      if is_digit c
      then let '(d, r) := span_digits s' in (String c d, r)
      else (EmptyString, s)
  end.

Definition is_empty (s : string) : bool :=
  match s with EmptyString => true | String _ _ => false end.

Fixpoint len (s : string) : Z :=
  match s with
  | EmptyString => 0
  | String _ s' => 1 + len s'
  end.

(** The number a run of decimal digits denotes, continuing from [acc]. *)
Fixpoint decimal_from (acc : Z) (s : string) : Z :=
  match s with
  | EmptyString => acc
  | String c s' =>
      match digit c with
      | Some d => decimal_from (acc * 10 + d) s'
      | None => acc
      end
  end.

Definition decimal (s : string) : Z := decimal_from 0 s.

(** The string holds no comma. *)
Fixpoint no_comma (s : string) : bool :=
  match s with
  | EmptyString => true
  | String c s' => negb (Ascii.eqb c ",") && no_comma s'
  end.

End Bytes.

(** ** [strconv] *)

Module strconv.

(** [strconv.ErrSyntax] and [strconv.ErrRange]. *)
Inductive Err := ErrSyntax | ErrRange.

(** [*strconv.NumError]: the failing function, the input and the cause. *)
Record NumError := mkNumError { Func : string; Num : string; Cause : Err }.

(** [strconv.ParseBool]: exactly twelve literals are accepted. *)
Definition ParseBool (str : string) : bool + NumError :=
  if decide (str = "1") then inl true
  else if decide (str = "t") then inl true
  else if decide (str = "T") then inl true
  else if decide (str = "true") then inl true
  else if decide (str = "TRUE") then inl true
  else if decide (str = "True") then inl true
  else if decide (str = "0") then inl false
  else if decide (str = "f") then inl false
  else if decide (str = "F") then inl false
  else if decide (str = "false") then inl false
  else if decide (str = "FALSE") then inl false
  else if decide (str = "False") then inl false
  else inr (mkNumError "ParseBool" str ErrSyntax).

Definition maxUint64 : Z := 2 ^ 64 - 1.

(** The digit loop of [strconv.ParseUint(s, 10, 64)]: [n] is the value read
    so far.  A byte that is no digit is a syntax error at that byte; a value
    that leaves [uint64] is a range error at that byte. *)
Fixpoint ParseUint_loop (n : Z) (s : string) : Z + Err :=
  match s with
  | EmptyString => inl n
  | String c s' =>
      match Bytes.digit c with
      | None => inr ErrSyntax
      | Some d =>
          if maxUint64 / 10 + 1 <=? n then inr ErrRange
          else let n1 := n * 10 + d in
               if maxUint64 <? n1 then inr ErrRange
               else ParseUint_loop n1 s'
      end
  end.

Definition ParseUint (s : string) : Z + Err :=
  match s with
  | EmptyString => inr ErrSyntax
  | _ => ParseUint_loop 0 s
  end.

(** [strconv.ParseInt(s, 10, 0)] where [int] has 64 bits, reporting errors
    under the function name [fn]. *)
Definition parseInt (fn : string) (s : string) : Z + NumError :=
  match s with
  | EmptyString => inr (mkNumError fn s ErrSyntax)
  | String c s' =>
      let neg := Ascii.eqb c "-" in
      let body := if Ascii.eqb c "+" || neg then s' else s in
      match ParseUint body with
      | inr ErrSyntax => inr (mkNumError fn s ErrSyntax)
      | inr ErrRange => inr (mkNumError fn s ErrRange)
      | inl un =>
          let cutoff := 2 ^ 63 in
          if negb neg && (cutoff <=? un) then inr (mkNumError fn s ErrRange)
          else if neg && (cutoff <? un) then inr (mkNumError fn s ErrRange)
          else inl (if neg then - un else un)
      end
  end.

Definition ParseInt (s : string) : Z + NumError := parseInt "ParseInt" s.

(** [strconv.Atoi(s)] is [ParseInt(s, 10, 0)] converted to [int], with the
    error renamed to [Atoi]. *)
Definition Atoi (s : string) : Z + NumError := parseInt "Atoi" s.

End strconv.

(** ** [strings.Split(s, ",")] *)

Module strings.

Fixpoint Split_comma (s : string) : list string :=
  match s with
  | EmptyString => [EmptyString]
  | String c s' =>
      if Ascii.eqb c ","
      then EmptyString :: Split_comma s'
      else match Split_comma s' with
           | h :: t => String c h :: t
           | [] => [String c EmptyString]
           end
  end.

End strings.

(** ** The regular expression [__RND_(\d+)__] *)

Module regexp.

(** A match of [__RND_(\d+)__] that starts at the first byte of [s]; the
    result is the text of the capture group.  [\d+] is greedy and the byte
    after the digits must be [_], so the group is the longest run of digits
    and no shorter run can lead to a match. *)
Definition match_here (s : string) : option string :=
  match Bytes.strip_prefix "__RND_" s with
  | None => None
  | Some r =>
      let '(d, rest) := Bytes.span_digits r in
      if Bytes.is_empty d then None
      else match Bytes.strip_prefix "__" rest with
           | Some _ => Some d
           | None => None
           end
  end.

(** [rndStringRegex.FindStringSubmatch(s)[1]] for the leftmost match, [None]
    when [FindStringSubmatch] returns [nil]. *)
Fixpoint FindStringSubmatch1 (s : string) : option string :=
  match match_here s with
  | Some d => Some d
  | None =>
      match s with
      | EmptyString => None
      | String _ s' => FindStringSubmatch1 s'
      end
  end.

(** [rndStringRegex.MatchString(s)]. *)
Definition MatchString (s : string) : bool :=
  match FindStringSubmatch1 s with Some _ => true | None => false end.

End regexp.

(** ** [reflect]: kinds, struct fields and values *)

Module reflect.

(** [reflect.Kind]. *)
Inductive Kind :=
  | Invalid | Bool | Int | Int8 | Int16 | Int32 | Int64
  | Uint | Uint8 | Uint16 | Uint32 | Uint64 | Uintptr
  | Float32 | Float64 | Complex64 | Complex128
  | Array | Chan | Func | Interface | Map | Ptr | Slice
  | String | Struct | UnsafePointer.

#[global] Instance Kind_eq_dec : EqDecision Kind.
Proof. solve_decision. Defined.

(** [reflect.StructTag] as its key/value pairs, in the order written. *)
Definition StructTag := list (string * string).

(** [StructTag.Lookup]: the value of the first pair with the given key. *)
Fixpoint Lookup (tag : StructTag) (key : string) : option string :=
  match tag with
  | [] => None
  | (k, v) :: tag' => if decide (k = key) then Some v else Lookup tag' key
  end.

(** [reflect.StructField]: the name and the tag of a field. *)
Record StructField := mkStructField { Name : string; Tag : StructTag }.

End reflect.

Abbreviation StructField := reflect.StructField.

(** A value reached through [reflect.Value].  The constructor fixes the kind
    of the field's type.  [VStrings] is a slice whose element type accepts a
    [string] (the type [[]string]); [VOpaque k] is a value of any other type
    of kind [k], whose contents the loader never reads: an unsigned integer,
    a float, a map, a pointer, an array, a slice of something else. *)
Inductive Value :=
  | VString (s : string)
  | VBool (b : bool)
  | VInt (n : Z)
  | VInt64 (n : Z)
  | VStrings (l : list string)
  | VOpaque (k : reflect.Kind)
  | VStruct (fs : list (StructField * Value)).

(** [f.Type.Kind()] of the field holding the value. *)
Definition Kind (v : Value) : reflect.Kind :=
  match v with
  | VString _ => reflect.String
  | VBool _ => reflect.Bool
  | VInt _ => reflect.Int
  | VInt64 _ => reflect.Int64
  | VStrings _ => reflect.Slice
  | VOpaque k => k
  | VStruct _ => reflect.Struct
  end.

(** What [IntoObject] receives as [object interface{}]: the nil interface, a
    value that is no pointer to a modelled value, or a pointer to a value.
    [ObjValue (VOpaque reflect.Ptr)] is a pointer whose target is no struct. *)
Inductive Object :=
  | ObjNil
  | ObjValue (v : Value)
  | ObjPtr (target : Value).

(** ** Errors and outcomes *)

(** A Go [error] value.  [Errorf] keeps the format string and the arguments
    of [fmt.Errorf] apart, so that the wrapped name and cause stay visible. *)
Inductive error :=
  | NumError (e : strconv.NumError)
  | PathError (Op Path Err : string)
  | LibError (msg : string)
  | Errorf (format : string) (args : list (string + error)).

(** How a call ends: it returns [nil], returns an error, panics, or ends the
    process ([log.Fatalf]). *)
Inductive outcome :=
  | Nil
  | Err (e : error)
  | Panic (what : string)
  | Exit (code : Z).

(** The call came back to its caller (it neither panicked nor exited). *)
Definition returned (o : outcome) : bool :=
  match o with Nil | Err _ => true | Panic _ | Exit _ => false end.

(** ** The world outside the package *)

(** - [environ]: the process environment read by [os.Getenv];
    - [cwd]: the result of [os.Getwd];
    - [files]: the regular files [ioutil.ReadFile] can open, each with its
      contents or the error reading it gives;
    - [packaged]: the files bundled by [pkger], likewise;
    - [tempdir_results], [tempdir_calls]: what the [n]-th call of
      [ioutil.TempDir] returns, and how many calls were made;
    - [rand_source], [rand_calls]: the [n]-th number drawn from the global
      [math/rand] generator, and how many were drawn. *)
Record World := mkWorld {
  environ : gmap string string;
  cwd : string + error;
  files : gmap string (string + error);
  packaged : gmap string (string + error);
  tempdir_results : nat -> string + error;
  tempdir_calls : nat;
  rand_source : nat -> nat;
  rand_calls : nat
}.

Module os.

(** [os.Getenv]: the empty string when the variable is not set. *)
Definition Getenv (w : World) (key : string) : string :=
  default EmptyString (environ w !! key).

Definition Getwd (w : World) : string + error := cwd w.

End os.

Module ioutil.

(** [ioutil.ReadFile]: a missing file is an [*os.PathError] of the [open]. *)
Definition ReadFile (w : World) (path : string) : string + error :=
  match files w !! path with
  | Some r => r
  | None => inr (PathError "open" path "no such file or directory")
  end.

(** [ioutil.TempDir("", "osde2e")]. *)
Definition TempDir (w : World) : (string + error) * World :=
  (tempdir_results w (tempdir_calls w),
   mkWorld (environ w) (cwd w) (files w) (packaged w)
           (tempdir_results w) (S (tempdir_calls w))
           (rand_source w) (rand_calls w)).

End ioutil.

Module pkger.

(** The error [pkger.Open] gives for a path outside the bundle. *)
Definition ErrNotExist : error := LibError "file does not exist".

(** [pkger.Open] followed by [ioutil.ReadAll]: [inr (inl e)] when [Open]
    fails with [e], [inr (inr e)] when reading the opened file fails. *)
Definition Open_ReadAll (w : World) (path : string)
  : string + (error + error) :=
  match packaged w !! path with
  | None => inr (inl ErrNotExist)
  | Some (inl data) => inl data
  | Some (inr e) => inr (inr e)
  end.

End pkger.

Module util.

(** The alphabet of [RandomStr]: digits and letters. *)
Definition alphabet : list ascii :=
  list_ascii_of_string
    "0123456789abcdefghijklmnopqrstuvwxyzABCDEFGHIJKLMNOPQRSTUVWXYZ".

Definition is_alnum (c : ascii) : bool :=
  bool_decide (c ∈ alphabet).

Fixpoint all_alnum (s : string) : bool :=
  match s with
  | EmptyString => true
  | String c s' => is_alnum c && all_alnum s'
  end.

Definition pick (n : nat) : ascii :=
  nth (n mod 62)%nat alphabet "0"%char.

Fixpoint draw (src : nat -> nat) (from : nat) (count : nat) : string :=
  match count with
  | O => EmptyString
  | S count' => String (pick (src from)) (draw src (S from) count')
  end.

(** Modelled from the spec: [util.RandomStr] of package
    [pkg/common/util], which is not among the sources.  The spec says the
    transform "generates a random alphanumeric string of length <N>": one
    alphanumeric character per number drawn from the generator, [length]
    of them. *)
Definition RandomStr (length : Z) (w : World) : string * World :=
  let n := Z.to_nat length in
  (draw (rand_source w) (rand_calls w) n,
   mkWorld (environ w) (cwd w) (files w) (packaged w)
           (tempdir_results w) (tempdir_calls w)
           (rand_source w) (rand_calls w + n)%nat).

End util.

(** ** What a pass may change in the world *)

(** Only the two call counters move. *)
Definition same_outside (w w' : World) : Prop :=
  environ w' = environ w /\ cwd w' = cwd w /\ files w' = files w
  /\ packaged w' = packaged w /\ tempdir_results w' = tempdir_results w
  /\ rand_source w' = rand_source w.

(** ** Libraries taken as given *)

(** [yaml.Unmarshal(data, object)] merges a document into the value behind
    the pointer and may fail after a partial merge; [filepath.Join],
    [filepath.Abs] and [filepath.Clean] are the path operations of the
    platform. *)
Class Libraries := {
  yaml_Unmarshal : string -> Value -> Value * option error;
  filepath_Join : string -> string -> string;
  filepath_Abs : string -> string + error;
  filepath_Clean : string -> string
}.

(** ** The package [load] *)

Module Tags.
(** [EnvVarTag], [SectionTag] and [DefaultTag]. *)
Definition EnvVarTag : string := "env".
Definition SectionTag : string := "sect".
Definition DefaultTag : string := "default".
End Tags.

(** [field.SetString(s)]: panics unless the field has kind [String]. *)
Definition SetString (field : Value) (s : string) : Value * outcome :=
  match field with
  | VString _ => (VString s, Nil)
  | _ => (field, Panic "reflect: call of reflect.Value.SetString on non-string Value")
  end.

(** [field.SetBool(b)]. *)
Definition SetBool (field : Value) (b : bool) : Value * outcome :=
  match field with
  | VBool _ => (VBool b, Nil)
  | _ => (field, Panic "reflect: call of reflect.Value.SetBool on non-bool Value")
  end.

(** [field.SetInt(n)]. *)
Definition SetInt (field : Value) (n : Z) : Value * outcome :=
  match field with
  | VInt _ => (VInt n, Nil)
  | VInt64 _ => (VInt64 n, Nil)
  | _ => (field, Panic "reflect: call of reflect.Value.SetInt on non-int Value")
  end.

(** [field.Set(reflect.Append(field, reflect.ValueOf(x)))] for a string
    [x]: [reflect.Append] panics on an array and on a slice whose elements
    cannot hold a string. *)
Definition SetAppend (field : Value) (x : string) : Value * outcome :=
  match field with
  | VStrings l => (VStrings (l ++ [x]), Nil)
  | _ => (field, Panic "reflect: call of reflect.Append on a Value that is no slice of strings")
  end.

(** [for i := range a { field.Set(reflect.Append(field, ...a[i])) }]. *)
Fixpoint appendAll (field : Value) (a : list string) : Value * outcome :=
  match a with
  | [] => (field, Nil)
  | x :: a' =>
      match SetAppend field x with
      | (field', Nil) => appendAll field' a'
      | r => r
      end
  end.

(** [processValueFromString(f, field, value)], lines 174-225.  The result is
    the world after the call, the field after the call and the outcome. *)
Definition processValueFromString
    (f : StructField) (field : Value) (value : string) (w : World)
  : World * Value * outcome :=
  match Kind field with
  | reflect.String =>
      if decide (value = "__TMP_DIR__") then
        match ioutil.TempDir w with
        | (inl dir, w') =>
            let '(field', o) := SetString field dir in (w', field', o)
        | (inr err, w') =>
            (w', field,
             Err (Errorf "error generating temporary directory for field %s: %v"
                    [inl (reflect.Name f); inr err]))
        end
      else if regexp.MatchString value then
        match regexp.FindStringSubmatch1 value with
        | Some digits =>
            match strconv.Atoi digits with
            | inl rndStringLen =>
                let '(rndString, w') := util.RandomStr rndStringLen w in
                let '(field', o) := SetString field rndString in (w', field', o)
            | inr err =>
                (w, field,
                 Err (Errorf "error generating random string for field %s: %v"
                        [inl (reflect.Name f); inr (NumError err)]))
            end
        | None => (w, field, Panic "index out of range")
        end
      else
        let '(field', o) := SetString field value in (w, field', o)
  | reflect.Bool =>
      match strconv.ParseBool value with
      | inl newBool =>
          let '(field', o) := SetBool field newBool in (w, field', o)
      | inr err =>
          (w, field,
           Err (Errorf "error parsing bool value for field %s: %v"
                  [inl (reflect.Name f); inr (NumError err)]))
      end
  | reflect.Slice | reflect.Array =>
      if decide (value = EmptyString) then (w, field, Nil)
      else let '(field', o) := appendAll field (strings.Split_comma value) in
           (w, field', o)
  | reflect.Int | reflect.Int64 =>
      match strconv.ParseInt value with
      | inl num =>
          let '(field', o) := SetInt field num in (w, field', o)
      | inr err =>
          (w, field,
           Err (Errorf "error parsing int value for field %s: %v"
                  [inl (reflect.Name f); inr (NumError err)]))
      end
  | _ => (w, field, Nil)
  end.

(** Lines 86-97 of [load]: the value to assign to a leaf field.  The result
    is the new content of the local variable [setValue] and whether the
    loop moves on to the next field ([continue]). *)
Definition chooseValue
    (source : string) (f : StructField) (setValue : string) (w : World)
  : string * bool :=
  let '(setValue1, skip) :=
    if decide (source = "default") then
      match reflect.Lookup (reflect.Tag f) Tags.DefaultTag with
      | Some d => (d, false)
      | None => (EmptyString, true)
      end
    else (setValue, false) in
  if skip then (setValue1, true)
  else if decide (source = "env") then
    match reflect.Lookup (reflect.Tag f) Tags.EnvVarTag with
    | Some env =>
        let setValue2 := os.Getenv w env in
        (setValue2, Bytes.is_empty setValue2)
    | None => (setValue1, false)
    end
  else (setValue1, false).

(** The state of the loop of [load]: the world, the local [setValue], the
    fields as mutated so far, and how the loop ended. *)
Record LoopState := mkLoop {
  loop_world : World;
  loop_setValue : string;
  loop_fields : list (StructField * Value);
  loop_outcome : outcome
}.

Section Fields.

(** [load(v.FieldByIndex(f.Index), source)] on a nested struct. *)
Variable load_nested : Value -> World -> World * Value * outcome.
Variable source : string.

(** The [for] loop of [load], lines 79-104, from some field on.  The error
    a nested [load] returns is dropped (line 84); an error of
    [processValueFromString] ends the loop (line 101). *)
Fixpoint load_fields
    (fs : list (StructField * Value)) (setValue : string) (w : World)
  : LoopState :=
  match fs with
  | [] => mkLoop w setValue [] Nil
  | (f, x) :: rest =>
      if decide (Kind x = reflect.Struct) then
        let '(w1, x', o) := load_nested x w in
        if returned o then
          let r := load_fields rest setValue w1 in
          mkLoop (loop_world r) (loop_setValue r)
                 ((f, x') :: loop_fields r) (loop_outcome r)
        else mkLoop w1 setValue ((f, x') :: rest) o
      else
        let '(setValue', skip) := chooseValue source f setValue w in
        if skip then
          let r := load_fields rest setValue' w in
          mkLoop (loop_world r) (loop_setValue r)
                 ((f, x) :: loop_fields r) (loop_outcome r)
        else
          let '(w1, x', o) := processValueFromString f x setValue' w in
          match o with
          | Nil =>
              let r := load_fields rest setValue' w1 in
              mkLoop (loop_world r) (loop_setValue r)
                     ((f, x') :: loop_fields r) (loop_outcome r)
          | _ => mkLoop w1 setValue' ((f, x') :: rest) o
          end
  end.

End Fields.

(** [load(v, source)], lines 76-106.  [v.Type().NumField()] panics when [v]
    is no struct. *)
Fixpoint load (source : string) (v : Value) (w : World)
  : World * Value * outcome :=
  match v with
  | VStruct fs =>
      let r := load_fields (load source) source fs EmptyString w in
      (loop_world r, VStruct (loop_fields r), loop_outcome r)
  | _ => (w, v, Panic "reflect: NumField of non-struct type")
  end.

(** [loadDefaults(object)], lines 111-115, on the value [v] behind the
    pointer [object].  The error of [load] is dropped and [nil] returned. *)
Definition loadDefaults (v : Value) (w : World) : World * Value * outcome :=
  let '(w', v', o) := load "default" v w in
  (w', v', if returned o then Nil else o).

(** [loadFromEnv(object)], lines 167-172. *)
Definition loadFromEnv (v : Value) (w : World) : World * Value * outcome :=
  let '(w', v', o) := load "env" v w in
  (w', v', if returned o then Nil else o).

Section Overlays.

Context {libs : Libraries}.

(** [yaml.Unmarshal(data, object)] followed by [return err] or [return nil]. *)
Definition unmarshal (data : string) (v : Value) : Value * outcome :=
  match yaml_Unmarshal data v with
  | (v', Some err) => (v', Err err)
  | (v', None) => (v', Nil)
  end.

(** [loadYAMLFromConfigs(object, name)], lines 118-136. *)
Definition loadYAMLFromConfigs (v : Value) (name : string) (w : World)
  : Value * outcome :=
  match pkger.Open_ReadAll w (filepath_Join "/configs" (name +:+ ".yaml")) with
  | inr (inl err) =>
      (v, Err (Errorf "error trying to open config %s: %v" [inl name; inr err]))
  | inr (inr err) => (v, Err err)
  | inl data => unmarshal data v
  end.

(** [loadYAMLFromFile(object, name)], lines 139-164. *)
Definition loadYAMLFromFile (v : Value) (name : string) (w : World)
  : Value * outcome :=
  match os.Getwd w with
  | inr err => (v, Exit 1)
  | inl dir =>
      match filepath_Abs (filepath_Join dir name) with
      | inr err => (v, Err err)
      | inl path =>
          match ioutil.ReadFile w (filepath_Clean path) with
          | inr err => (v, Err err)
          | inl data => unmarshal data v
          end
      end
  end.

(** The loop over [configs] in [IntoObject], lines 52-56. *)
Fixpoint loadConfigs (configs : list string) (v : Value) (w : World)
  : Value * outcome :=
  match configs with
  | [] => (v, Nil)
  | config :: configs' =>
      match loadYAMLFromConfigs v config w with
      | (v', Nil) => loadConfigs configs' v' w
      | (v', Err err) =>
          (v', Err (Errorf "error loading config from YAML: %v" [inr err]))
      | r => r
      end
  end.

(** Lines 46-64 of [IntoObject]: the default pass, the bundled overlays and
    the custom overlay. *)
Definition loadLayers
    (v : Value) (configs : list string) (customConfig : string) (w : World)
  : World * Value * outcome :=
  match loadDefaults v w with
  | (w1, v1, Nil) =>
      match loadConfigs configs v1 w1 with
      | (v2, Nil) =>
          if decide (customConfig = EmptyString) then (w1, v2, Nil)
          else match loadYAMLFromFile v2 customConfig w1 with
               | (v3, Err err) =>
                   (w1, v3,
                    Err (Errorf "error loading custom config from YAML: %v"
                           [inr err]))
               | (v3, o) => (w1, v3, o)
               end
      | (v2, o) => (w1, v2, o)
      end
  | (w1, v1, Err err) =>
      (w1, v1, Err (Errorf "error loading config defaults: %v" [inr err]))
  | r => r
  end.

(** [IntoObject(object, configs, customConfig)], lines 41-73.  The result is
    the world and the object after the call, and the outcome. *)
Definition IntoObject
    (object : Object) (configs : list string) (customConfig : string)
    (w : World)
  : World * Object * outcome :=
  match object with
  | ObjNil => (w, object, Panic "invalid memory address or nil pointer dereference")
  | ObjValue v =>
      if decide (Kind v = reflect.Ptr)
      then (w, object, Panic "reflect: NumField of non-struct type")
      else (w, object, Err (Errorf "the supplied object must be a pointer" []))
  | ObjPtr v =>
      match loadLayers v configs customConfig w with
      | (w3, v3, Nil) =>
          match loadFromEnv v3 w3 with
          | (w4, v4, Err err) =>
              (w4, ObjPtr v4,
               Err (Errorf "error loading config from environment: %v"
                      [inr err]))
          | (w4, v4, o) => (w4, ObjPtr v4, o)
          end
      | (w3, v3, o) => (w3, ObjPtr v3, o)
      end
  end.

End Overlays.

(** ** Reading a field by its path *)

(** The field reached from [v] by the field indexes [p], outermost first. *)
Fixpoint get (p : list nat) (v : Value) : option Value :=
  match p with
  | [] => Some v
  | i :: p' =>
      match v with
      | VStruct fs =>
          match fs !! i with
          | Some (_, x) => get p' x
          | None => None
          end
      | _ => None
      end
  end.

(** The zero value of the type of [x]. *)
Definition zeroOf (x : Value) : Value :=
  match x with
  | VString _ => VString EmptyString
  | VBool _ => VBool false
  | VInt _ => VInt 0
  | VInt64 _ => VInt64 0
  | VStrings _ => VStrings []
  | VOpaque k => VOpaque k
  | VStruct fs => VStruct fs
  end.

(** The field has one of the four types that [processValueFromString] sets
    from a parsed value: string, bool, int, int64. *)
Definition scalar (x : Value) : bool :=
  match x with
  | VString _ | VBool _ | VInt _ | VInt64 _ => true
  | _ => false
  end.

(** The walk of [load] arrives at the field at path [p]: every field before
    it, in its own struct and in the enclosing ones, was passed without an
    error ending the loop.  The result is the world and the local
    [setValue] at that moment, and the field with its value. *)
Fixpoint arrive (source : string) (p : list nat) (v : Value) (w : World)
  : option (World * string * StructField * Value) :=
  match p, v with
  | i :: p', VStruct fs =>
      let r := load_fields (load source) source (take i fs) EmptyString w in
      match loop_outcome r, fs !! i with
      | Nil, Some (f, x) =>
          match p' with
          | [] => Some (loop_world r, loop_setValue r, f, x)
          | _ => arrive source p' x (loop_world r)
          end
      | _, _ => None
      end
  | _, _ => None
  end.

(** What the loop leaves in a leaf field it arrives at. *)
Definition leaf_after
    (source : string) (f : StructField) (x : Value) (setValue : string)
    (w : World) : Value :=
  let '(setValue', skip) := chooseValue source f setValue w in
  if skip then x
  else snd (fst (processValueFromString f x setValue' w)).

(** ** Overlays and single fields *)

Section OverlayFields.

Context {libs : Libraries}.


End OverlayFields.

(** ** Layout, fields by path, and plain values *)

(** The layout of a value: the names, tags and types of its fields, their
    contents erased. *)
Fixpoint skeleton (v : Value) : Value :=
  match v with
  | VStruct fs => VStruct (map (fun fx => (fst fx, skeleton (snd fx))) fs)
  | _ => zeroOf v
  end.

(** The field at path [p] together with its [reflect.StructField]. *)
Fixpoint field_at (p : list nat) (v : Value) : option (StructField * Value) :=
  match p, v with
  | i :: p', VStruct fs =>
      match fs !! i with
      | Some (f, x) =>
          match p' with
          | [] => Some (f, x)
          | _ => field_at p' x
          end
      | None => None
      end
  | _, _ => None
  end.

(** A value that is no directive: neither the temporary-directory sentinel
    nor a match of the randomized-string pattern. *)
Definition plain (value : string) : bool :=
  negb (bool_decide (value = "__TMP_DIR__")) && negb (regexp.MatchString value).

(** Every [default] tag of a leaf field, at any depth, is plain. *)
Fixpoint plainDefaults (v : Value) : bool :=
  match v with
  | VStruct fs =>
      forallb
        (fun fx =>
           match snd fx with
           | VStruct _ => plainDefaults (snd fx)
           | _ =>
               match reflect.Lookup (reflect.Tag (fst fx)) Tags.DefaultTag with
               | Some d => plain d
               | None => true
               end
           end) fs
  | _ => true
  end.

(** The calls made so far never decrease. *)
Definition counters_advance (w w' : World) : Prop :=
  (tempdir_calls w <= tempdir_calls w')%nat /\ (rand_calls w <= rand_calls w')%nat.

(** ** A small instance used in the examples *)

Module Sample.

(** A document of the sample format is the text of a new value for the
    string field of a one-field struct; the text [!] is malformed. *)
Definition Unmarshal (data : string) (v : Value) : Value * option error :=
  if decide (data = "!") then (v, Some (LibError "yaml: malformed document"))
  else match v with
       | VStruct [(f, VString _)] => (VStruct [(f, VString data)], None)
       | _ => (v, None)
       end.

Definition libs : Libraries := {|
  yaml_Unmarshal := Unmarshal;
  filepath_Join := fun dir name => dir +:+ "/" +:+ name;
  filepath_Abs := fun path => inl path;
  filepath_Clean := fun path => path
|}.

Definition world (env : list (string * string)) : World :=
  mkWorld (list_to_map env) (inl "/work")
          (list_to_map [("/work/custom.yaml", inl "custom")])
          (list_to_map [("/configs/a.yaml", inl "A"); ("/configs/b.yaml", inl "B")])
          (fun n => inl ("/tmp/osde2e" +:+ String (util.pick n) EmptyString))
          0 (fun n => (7 * n + 3)%nat) 0.

Definition field (name : string) (tag : list (string * string)) : StructField :=
  reflect.mkStructField name tag.

End Sample.

(** Structs used in the examples. *)
Module Examples.

Import Sample.

(** [struct { Name string `default:"d" env:"NAME"` }] holding [s]. *)
Definition named (s : string) : Value :=
  VStruct [(field "Name" [("default", "d"); ("env", "NAME")], VString s)].

(** [struct { Name string `default:"d"` }]: no [env] tag. *)
Definition untagged (s : string) : Value :=
  VStruct [(field "Name" [("default", "d")], VString s)].

(** [struct { Debug bool `default:"maybe" env:"DEBUG"` }]. *)
Definition debug (b : bool) : Value :=
  VStruct [(field "Debug" [("default", "maybe"); ("env", "DEBUG")], VBool b)].

(** [struct { Items []string `default:"x" env:"ITEMS"` }]. *)
Definition items (l : list string) : Value :=
  VStruct [(field "Items" [("default", "x"); ("env", "ITEMS")], VStrings l)].

End Examples.

(** A world whose working directory cannot be determined, and whose
    bundle holds a malformed document and an unreadable one. *)
Module Stranded.

Definition world : World :=
  mkWorld (list_to_map [("NAME", "e")])
          (inr (PathError "getwd" "." "no such file or directory"))
          (list_to_map [("/work/custom.yaml", inl "custom")])
          (list_to_map [("/configs/a.yaml", inl "A");
                        ("/configs/bad.yaml", inl "!");
                        ("/configs/torn.yaml", inr (LibError "unexpected EOF"))])
          (fun n => inr (LibError "no space left on device"))
          0 (fun n => n) 0.

End Stranded.

(** * Properties *)

(** ** Strings, [strconv] and the regular expression *)

#[local] Arguments String.append !_ _ / : simpl nomatch.

Lemma append_assoc (a b c : string) : (a +:+ b) +:+ c = a +:+ (b +:+ c).
Proof. induction a as [|x a IH]; simpl; [reflexivity | now rewrite IH]. Qed.

Lemma is_digit_digit c : Bytes.is_digit c = true -> exists d, Bytes.digit c = Some d /\ 0 <= d <= 9.
Proof.
  unfold Bytes.is_digit. intros Hc.
  destruct (Bytes.digit c) as [d|] eqn:E; [|discriminate].
  exists d. split; [reflexivity|].
  unfold Bytes.digit in E.
  destruct (48 <=? Z.of_N (N_of_ascii c)) eqn:Hlo; [|discriminate].
  destruct (Z.of_N (N_of_ascii c) <=? 57) eqn:Hhi; [|discriminate].
  injection E as <-. lia.
Qed.

(** The run of digits at the head of [N ++ "_" ++ rest] is [N]. *)
Lemma span_digits_run (N rest : string) :
  Bytes.all_digits N = true ->
  Bytes.span_digits (N +:+ String "_" rest) = (N, String "_" rest).
Proof.
  induction N as [|c N IH]; simpl; intros HN; [reflexivity|].
  apply andb_true_iff in HN as [Hc HN].
  rewrite Hc, (IH HN). reflexivity.
Qed.

Lemma span_digits_no_digit (s : string) :
  Bytes.no_digit s = true -> fst (Bytes.span_digits s) = EmptyString.
Proof.
  destruct s as [|c s]; simpl; [reflexivity|].
  intros Hs. apply andb_true_iff in Hs as [Hc _].
  apply negb_true_iff in Hc. now rewrite Hc.
Qed.

Lemma strip_prefix_no_digit (p s r : string) :
  Bytes.strip_prefix p s = Some r -> Bytes.no_digit s = true -> Bytes.no_digit r = true.
Proof.
  revert s. induction p as [|a p IH]; intros s.
  - simpl. now intros [= <-].
  - destruct s as [|b s]; simpl; [discriminate|].
    destruct (Ascii.eqb a b); [|discriminate].
    intros Hr Hs. apply andb_true_iff in Hs as [_ Hs]. eauto.
Qed.

(** The pattern needs a digit: a string without one has no match. *)
Lemma match_here_no_digit (s : string) :
  Bytes.no_digit s = true -> regexp.match_here s = None.
Proof.
  intros Hs. unfold regexp.match_here.
  destruct (Bytes.strip_prefix "__RND_" s) as [r|] eqn:Hr; [|reflexivity].
  pose proof (span_digits_no_digit r (strip_prefix_no_digit _ _ _ Hr Hs)) as Hd.
  destruct (Bytes.span_digits r) as [d rest]. simpl in Hd. now subst d.
Qed.

Lemma Find_no_digit (s : string) :
  Bytes.no_digit s = true -> regexp.FindStringSubmatch1 s = None.
Proof.
  induction s as [|c s IH]; intros Hs.
  - reflexivity.
  - cbn [regexp.FindStringSubmatch1]. rewrite (match_here_no_digit _ Hs).
    simpl in Hs. apply andb_true_iff in Hs as [_ Hs]. auto.
Qed.

Lemma no_digit_app (a b : string) :
  Bytes.no_digit (a +:+ b) = Bytes.no_digit a && Bytes.no_digit b.
Proof.
  induction a as [|c a IH]; simpl; [reflexivity|].
  rewrite IH. now rewrite andb_assoc.
Qed.

(** A match that starts at the head of [__RND_<N>__...] captures [N]. *)
Lemma match_here_rnd (N post : string) :
  Bytes.all_digits N = true -> N <> EmptyString ->
  regexp.match_here ("__RND_" +:+ N +:+ "__" +:+ post) = Some N.
Proof.
  intros HN Hne. unfold regexp.match_here. simpl.
  change ("__" +:+ post) with (String "_" (String "_" post)).
  rewrite (span_digits_run N _ HN).
  destruct N; [congruence|]. reflexivity.
Qed.

(** The capture group of any match is a non-empty run of digits. *)
Lemma span_digits_all (s d r : string) :
  Bytes.span_digits s = (d, r) -> Bytes.all_digits d = true /\ s = d +:+ r.
Proof.
  revert d r. induction s as [|c s IH]; simpl; intros d r E.
  - inversion E. auto.
  - destruct (Bytes.is_digit c) eqn:Hc.
    + destruct (Bytes.span_digits s) as [d' r']. inversion E; subst.
      destruct (IH d' r eq_refl) as [Hd Hs]. simpl. rewrite Hc, Hd. subst s. auto.
    + inversion E; subst. auto.
Qed.

Lemma match_here_digits (s d : string) :
  regexp.match_here s = Some d -> Bytes.all_digits d = true /\ d <> EmptyString.
Proof.
  unfold regexp.match_here.
  destruct (Bytes.strip_prefix "__RND_" s) as [r|]; [|discriminate].
  destruct (Bytes.span_digits r) as [d' rest] eqn:E.
  destruct (span_digits_all _ _ _ E) as [Hd _].
  destruct d' as [|c d']; cbn [Bytes.is_empty]; [discriminate|].
  destruct (Bytes.strip_prefix "__" rest); [|discriminate].
  intros [= <-]. split; [exact Hd | discriminate].
Qed.

Lemma strip_prefix_app (p s r : string) :
  Bytes.strip_prefix p s = Some r -> s = p +:+ r.
Proof.
  revert s. induction p as [|a p IH]; intros s.
  - simpl. now intros [= <-].
  - destruct s as [|b s]; simpl; [discriminate|].
    destruct (Ascii.eqb_spec a b) as [->|_]; [|discriminate].
    intros Hr. now rewrite (IH s Hr).
Qed.

(** A match at the head of [s] spells the pattern: [s] is [__RND_], the
    captured digits, [__], and a rest. *)
Lemma match_here_sound (s d : string) :
  regexp.match_here s = Some d ->
  exists rest, s = "__RND_" +:+ d +:+ "__" +:+ rest.
Proof.
  unfold regexp.match_here.
  destruct (Bytes.strip_prefix "__RND_" s) as [r|] eqn:Hr; [|discriminate].
  destruct (Bytes.span_digits r) as [d' tail] eqn:E.
  destruct (span_digits_all _ _ _ E) as [_ Hr'].
  destruct (Bytes.is_empty d'); [discriminate|].
  destruct (Bytes.strip_prefix "__" tail) as [rest|] eqn:Ht; [|discriminate].
  intros [= <-]. exists rest.
  rewrite (strip_prefix_app _ _ _ Hr), Hr', (strip_prefix_app _ _ _ Ht).
  reflexivity.
Qed.

Lemma Find_digits (s d : string) :
  regexp.FindStringSubmatch1 s = Some d -> Bytes.all_digits d = true /\ d <> EmptyString.
Proof.
  induction s as [|c s IH]; cbn [regexp.FindStringSubmatch1].
  - destruct (regexp.match_here EmptyString) eqn:E; [|discriminate].
    intros [= <-]. eapply match_here_digits; eauto.
  - destruct (regexp.match_here (String c s)) eqn:E; [|exact IH].
    intros [= <-]. eapply match_here_digits; eauto.
Qed.

(** A string that contains [__RND_<N>__] has a match, and the leftmost
    match is this one when no match starts before it. *)
Lemma Find_contains (pre N post : string) :
  Bytes.all_digits N = true -> N <> EmptyString ->
  exists d, regexp.FindStringSubmatch1 (pre +:+ "__RND_" +:+ N +:+ "__" +:+ post) = Some d.
Proof.
  intros HN Hne. induction pre as [|c pre IH].
  - exists N. change (EmptyString +:+ ?x) with x.
    destruct N as [|n N]; [congruence|].
    pose proof (match_here_rnd (String n N) post HN Hne) as Hm.
    simpl in Hm |- *. now rewrite Hm.
  - destruct IH as [d Hd]. simpl String.append. cbn [regexp.FindStringSubmatch1].
    destruct (regexp.match_here _) as [d'|]; eauto.
Qed.


Lemma decimal_from_ge (s : string) (acc : Z) :
  0 <= acc -> acc <= Bytes.decimal_from acc s.
Proof.
  revert acc. induction s as [|c s IH]; simpl; intros acc Hacc; [lia|].
  destruct (Bytes.digit c) as [d|] eqn:E; [|lia].
  assert (0 <= d <= 9) as Hd.
  { destruct (is_digit_digit c) as (d' & E' & Hd'); [|congruence].
    unfold Bytes.is_digit. now rewrite E. }
  specialize (IH (acc * 10 + d)). lia.
Qed.

(** [ParseUint] on digits: the number they denote, or a range error when
    it does not fit 64 bits. *)
Lemma ParseUint_loop_digits (s : string) (acc : Z) :
  Bytes.all_digits s = true -> 0 <= acc <= strconv.maxUint64 ->
  strconv.ParseUint_loop acc s
  = if Bytes.decimal_from acc s <=? strconv.maxUint64
    then inl (Bytes.decimal_from acc s) else inr strconv.ErrRange.
Proof.
  revert acc. induction s as [|c s IH]; simpl; intros acc Hs Hacc.
  - destruct (Z.leb_spec acc strconv.maxUint64); [reflexivity | lia].
  - apply andb_true_iff in Hs as [Hc Hs].
    destruct (is_digit_digit c Hc) as (d & E & Hd). rewrite E.
    pose proof (decimal_from_ge s (acc * 10 + d)) as Hge.
    unfold strconv.maxUint64 in *.
    destruct (Z.leb_spec (( 2 ^ 64 - 1) / 10 + 1) acc) as [Hcut|Hcut].
    + change ((2 ^ 64 - 1) / 10 + 1) with 1844674407370955162 in Hcut.
      destruct (Z.leb_spec (Bytes.decimal_from (acc * 10 + d) s) (2 ^ 64 - 1)); [lia | reflexivity].
    + destruct (Z.ltb_spec (2 ^ 64 - 1) (acc * 10 + d)) as [Hov|Hov].
      * destruct (Z.leb_spec (Bytes.decimal_from (acc * 10 + d) s) (2 ^ 64 - 1)); [lia | reflexivity].
      * apply IH; [exact Hs | lia].
Qed.

(** [Atoi] on a non-empty run of digits. *)
Lemma Atoi_digits (s : string) :
  Bytes.all_digits s = true -> s <> EmptyString ->
  strconv.Atoi s
  = if Bytes.decimal s <? 2 ^ 63 then inl (Bytes.decimal s)
    else inr (strconv.mkNumError "Atoi" s strconv.ErrRange).
Proof.
  intros Hs Hne. destruct s as [|c s]; [congruence|].
  unfold strconv.Atoi, strconv.parseInt.
  pose proof Hs as Hs'. simpl in Hs'. apply andb_true_iff in Hs' as [Hc _].
  assert (Ascii.eqb c "+" = false /\ Ascii.eqb c "-" = false) as [Hp Hm].
  { destruct (is_digit_digit c Hc) as (d & E & _). unfold Bytes.digit in E.
    destruct (Ascii.eqb_spec c "+") as [->|_]; [discriminate|].
    destruct (Ascii.eqb_spec c "-") as [->|_]; [discriminate|]. auto. }
  rewrite Hp, Hm. cbn [orb negb andb].
  unfold strconv.ParseUint.
  rewrite (ParseUint_loop_digits (String c s) 0 Hs) by (unfold strconv.maxUint64; lia).
  fold (Bytes.decimal (String c s)).
  pose proof (decimal_from_ge (String c s) 0 ltac:(lia)) as Hge. fold (Bytes.decimal (String c s)) in Hge.
  unfold strconv.maxUint64.
  destruct (Z.leb_spec (Bytes.decimal (String c s)) (2 ^ 64 - 1)) as [H64|H64].
  - destruct (Z.leb_spec (2 ^ 63) (Bytes.decimal (String c s))) as [H63|H63];
      destruct (Z.ltb_spec (Bytes.decimal (String c s)) (2 ^ 63)); try lia; reflexivity.
  - destruct (Z.ltb_spec (Bytes.decimal (String c s)) (2 ^ 63)); [lia | reflexivity].
Qed.

Example decimal_007 : Bytes.decimal "007" = 7.
Proof. reflexivity. Qed.

(** ** [strings.Split] *)


Lemma Split_comma_nonempty (s : string) : strings.Split_comma s <> [].
Proof.
  induction s as [|c s IH]; simpl; [discriminate|].
  destruct (Ascii.eqb c ","); [discriminate|].
  destruct (strings.Split_comma s); [congruence | discriminate].
Qed.

Lemma concat_cons (sep x : string) (l : list string) :
  l <> [] -> String.concat sep (x :: l) = x +:+ sep +:+ String.concat sep l.
Proof. destruct l; [congruence | reflexivity]. Qed.

(** Joining the pieces with commas gives the input back. *)
Lemma Split_comma_concat (s : string) :
  String.concat "," (strings.Split_comma s) = s.
Proof.
  induction s as [|c s IH]; [reflexivity|].
  cbn [strings.Split_comma].
  pose proof (Split_comma_nonempty s) as Hne.
  destruct (Ascii.eqb_spec c ",") as [->|Hc].
  - rewrite concat_cons by assumption. rewrite IH. reflexivity.
  - destruct (strings.Split_comma s) as [|h t]; [congruence|].
    destruct t as [|h' t].
    + simpl in IH |- *. now rewrite IH.
    + rewrite concat_cons in IH |- * by discriminate. rewrite <- IH. reflexivity.
Qed.

Lemma Split_comma_no_comma (s : string) :
  Forall (fun piece => Bytes.no_comma piece = true) (strings.Split_comma s).
Proof.
  induction s as [|c s IH]; cbn [strings.Split_comma].
  - repeat constructor.
  - destruct (Ascii.eqb c ",") eqn:Hc.
    + constructor; [reflexivity | exact IH].
    + destruct (strings.Split_comma s) as [|h t].
      * repeat constructor. simpl. now rewrite Hc.
      * inversion IH; subst. constructor; [|assumption]. simpl. now rewrite Hc.
Qed.

(** ** [util.RandomStr] *)

Lemma draw_length src from count : Bytes.len (util.draw src from count) = Z.of_nat count.
Proof.
  revert from. induction count as [|count IH]; intros from; [reflexivity|].
  cbn [util.draw Bytes.len]. rewrite IH. lia.
Qed.


Lemma pick_alnum n : util.is_alnum (util.pick n) = true.
Proof.
  unfold util.pick.
  assert (n mod 62 < 62)%nat as Hlt by (apply Nat.mod_upper_bound; discriminate).
  revert Hlt. generalize (n mod 62)%nat as k. intros k Hk.
  do 62 (destruct k as [|k]; [vm_compute; reflexivity|]). lia.
Qed.

Lemma draw_alnum src from count : util.all_alnum (util.draw src from count) = true.
Proof.
  revert from. induction count as [|count IH]; intros from; [reflexivity|].
  cbn [util.draw util.all_alnum]. now rewrite pick_alnum, IH.
Qed.

(** [RandomStr] gives [length] alphanumeric characters. *)
Lemma RandomStr_spec (length : Z) (w : World) :
  0 <= length ->
  Bytes.len (fst (util.RandomStr length w)) = length
  /\ util.all_alnum (fst (util.RandomStr length w)) = true.
Proof.
  intros Hlen. unfold util.RandomStr. cbn [fst]. split.
  - rewrite draw_length. lia.
  - apply draw_alnum.
Qed.

(** The leftmost match is the one at [X] when no match starts before it. *)
Lemma Find_leftmost (pre X N : string) :
  regexp.match_here X = Some N ->
  (forall a b, pre = a +:+ b -> b <> EmptyString ->
               regexp.match_here (b +:+ X) = None) ->
  regexp.FindStringSubmatch1 (pre +:+ X) = Some N.
Proof.
  intros HX. induction pre as [|c pre IH]; intros Hnone.
  - simpl. destruct X; cbn [regexp.FindStringSubmatch1]; now rewrite HX.
  - simpl String.append. cbn [regexp.FindStringSubmatch1].
    pose proof (Hnone EmptyString (String c pre) eq_refl ltac:(discriminate)) as H0.
    simpl String.append in H0. rewrite H0.
    apply IH. intros a b -> Hb. apply (Hnone (String c a) b); [reflexivity | exact Hb].
Qed.

Lemma rnd_is_not_tmp_dir (value : string) :
  regexp.MatchString value = true -> value <> "__TMP_DIR__".
Proof. intros Hm ->. vm_compute in Hm. discriminate. Qed.

(** ** [processValueFromString] *)

(** What the string case does with a value that has a match of the pattern. *)
Lemma processValueFromString_match
    (f : StructField) (old value digits : string) (w : World) :
  regexp.FindStringSubmatch1 value = Some digits ->
  processValueFromString f (VString old) value w
  = if Bytes.decimal digits <? 2 ^ 63
    then (snd (util.RandomStr (Bytes.decimal digits) w),
          VString (fst (util.RandomStr (Bytes.decimal digits) w)), Nil)
    else (w, VString old,
          Err (Errorf "error generating random string for field %s: %v"
                 [inl (reflect.Name f);
                  inr (NumError (strconv.mkNumError "Atoi" digits strconv.ErrRange))])).
Proof.
  intros Hfind.
  assert (regexp.MatchString value = true) as Hm
    by (unfold regexp.MatchString; now rewrite Hfind).
  destruct (Find_digits _ _ Hfind) as [Hd Hne].
  unfold processValueFromString. cbn [Kind].
  destruct (decide (value = "__TMP_DIR__")) as [Htmp|_];
    [now apply rnd_is_not_tmp_dir in Hm|].
  rewrite Hm, Hfind, (Atoi_digits digits Hd Hne).
  destruct (Bytes.decimal digits <? 2 ^ 63); [|reflexivity].
  destruct (util.RandomStr (Bytes.decimal digits) w) as [rndString w']. reflexivity.
Qed.

(** What the string case does with a value that is no directive. *)
Lemma processValueFromString_plain
    (f : StructField) (old value : string) (w : World) :
  value <> "__TMP_DIR__" -> regexp.FindStringSubmatch1 value = None ->
  processValueFromString f (VString old) value w = (w, VString value, Nil).
Proof.
  intros Htmp Hfind. unfold processValueFromString. cbn [Kind].
  destruct (decide (value = "__TMP_DIR__")); [congruence|].
  unfold regexp.MatchString. rewrite Hfind. reflexivity.
Qed.

(** C3 (amended): for a string field and the value [__RND_<N>__]: when [N]
    is a non-empty run of decimal digits that denotes a number below 2^63,
    the field is assigned [util.RandomStr] of that number, which has that
    many alphanumeric characters; when the digits denote a larger number
    the call returns the field-level error of [strconv.Atoi] and leaves the
    field; when [N] holds no digit (as in [__RND_abc__]) the pattern does
    not match, the value is stored as it is and no error is returned. *)
Theorem processValueFromString_rnd
    (f : StructField) (old N : string) (w : World) :
  let value := "__RND_" +:+ N +:+ "__" in
  (Bytes.all_digits N = true -> N <> EmptyString ->
   if Bytes.decimal N <? 2 ^ 63
   then processValueFromString f (VString old) value w
        = (snd (util.RandomStr (Bytes.decimal N) w),
           VString (fst (util.RandomStr (Bytes.decimal N) w)), Nil)
        /\ Bytes.len (fst (util.RandomStr (Bytes.decimal N) w)) = Bytes.decimal N
        /\ util.all_alnum (fst (util.RandomStr (Bytes.decimal N) w)) = true
   else processValueFromString f (VString old) value w
        = (w, VString old,
           Err (Errorf "error generating random string for field %s: %v"
                  [inl (reflect.Name f);
                   inr (NumError (strconv.mkNumError "Atoi" N strconv.ErrRange))])))
  /\ (Bytes.no_digit N = true ->
      processValueFromString f (VString old) value w = (w, VString value, Nil)).
Proof.
  intros value. split.
  - intros HN Hne.
    assert (regexp.FindStringSubmatch1 value = Some N) as Hfind.
    { pose proof (match_here_rnd N EmptyString HN Hne) as Hm.
      assert ("__RND_" +:+ N +:+ "__" +:+ EmptyString = value) as Hv by reflexivity.
      rewrite Hv in Hm. unfold value in *. simpl in Hm |- *. now rewrite Hm. }
    rewrite (processValueFromString_match f old value N w Hfind).
    destruct (Z.ltb_spec (Bytes.decimal N) (2 ^ 63)) as [Hlt|Hge]; [|reflexivity].
    split; [reflexivity|].
    apply RandomStr_spec. unfold Bytes.decimal. apply decimal_from_ge. lia.
  - intros HN. apply processValueFromString_plain.
    + unfold value. simpl. discriminate.
    + apply Find_no_digit. unfold value.
      rewrite !no_digit_app, HN. reflexivity.
Qed.

Lemma processValueFromString_rnd_witness :
  processValueFromString (Sample.field "Name" [("default", "__RND_8__")])
    (VString EmptyString) "__RND_8__" (Sample.world [])
  = (snd (util.RandomStr 8 (Sample.world [])),
     VString (fst (util.RandomStr 8 (Sample.world []))), Nil)
  /\ Bytes.len (fst (util.RandomStr 8 (Sample.world []))) = 8
  /\ processValueFromString (Sample.field "Name" [("default", "__RND_x__")])
       (VString EmptyString) "__RND_x__" (Sample.world [])
     = (Sample.world [], VString "__RND_x__", Nil).
Proof.
  pose proof (processValueFromString_rnd
                (Sample.field "Name" [("default", "__RND_8__")]) EmptyString "8"
                (Sample.world [])) as [H8 _].
  specialize (H8 eq_refl ltac:(discriminate)).
  change (Bytes.decimal "8" <? 2 ^ 63) with true in H8. cbv iota in H8.
  change (Bytes.decimal "8") with 8 in H8.
  destruct H8 as (Hrun & Hlen & _).
  pose proof (processValueFromString_rnd
                (Sample.field "Name" [("default", "__RND_x__")]) EmptyString "x"
                (Sample.world [])) as [_ Hx].
  split; [exact Hrun|]. split; [exact Hlen|]. exact (Hx eq_refl).
Defined.

(** The claim C3 fails on the code: [__RND_abc__] is stored as it is, and
    the call returns [nil]. *)
Lemma processValueFromString_rnd_abc :
  let '(_, field, o) :=
    processValueFromString (Sample.field "Name" [("default", "__RND_abc__")])
      (VString EmptyString) "__RND_abc__" (Sample.world []) in
  (field, o) = (VString "__RND_abc__", Nil).
Proof. vm_compute. reflexivity. Qed.

(** C9: for a string field, the randomized-string transform triggers as
    soon as the value contains [__RND_<digits>__] somewhere: the pattern
    matches, and (the number fitting an [int]) the whole value, prefix and
    suffix included, is replaced by [util.RandomStr] of the number captured
    by the leftmost match; that match is the given occurrence when no other
    match starts before it. *)
Theorem processValueFromString_rnd_substring
    (f : StructField) (old pre N post : string) (w : World) :
  Bytes.all_digits N = true -> N <> EmptyString ->
  let value := pre +:+ "__RND_" +:+ N +:+ "__" +:+ post in
  exists digits,
    regexp.FindStringSubmatch1 value = Some digits
    /\ regexp.MatchString value = true
    /\ (Bytes.decimal digits < 2 ^ 63 ->
        processValueFromString f (VString old) value w
        = (snd (util.RandomStr (Bytes.decimal digits) w),
           VString (fst (util.RandomStr (Bytes.decimal digits) w)), Nil)
        /\ Bytes.len (fst (util.RandomStr (Bytes.decimal digits) w))
           = Bytes.decimal digits)
    /\ ((forall a b, pre = a +:+ b -> b <> EmptyString ->
           regexp.match_here (b +:+ "__RND_" +:+ N +:+ "__" +:+ post) = None) ->
        digits = N).
Proof.
  intros HN Hne value.
  destruct (Find_contains pre N post HN Hne) as [digits Hfind].
  fold value in Hfind. exists digits.
  split; [exact Hfind|].
  split; [unfold regexp.MatchString; now rewrite Hfind|].
  split.
  - intros Hlt. rewrite (processValueFromString_match f old value digits w Hfind).
    destruct (Z.ltb_spec (Bytes.decimal digits) (2 ^ 63)); [|lia].
    split; [reflexivity|].
    apply RandomStr_spec. unfold Bytes.decimal. apply decimal_from_ge. lia.
  - intros Hnone.
    pose proof (Find_leftmost pre _ N (match_here_rnd N post HN Hne) Hnone) as Hleft.
    fold value in Hleft. congruence.
Qed.

Lemma processValueFromString_rnd_substring_witness :
  processValueFromString (Sample.field "Name" []) (VString "old")
    "prefix__RND_5__suffix" (Sample.world [])
  = (snd (util.RandomStr 5 (Sample.world [])),
     VString (fst (util.RandomStr 5 (Sample.world []))), Nil)
  /\ Bytes.len (fst (util.RandomStr 5 (Sample.world []))) = 5.
Proof.
  destruct (processValueFromString_rnd_substring
              (Sample.field "Name" []) "old" "prefix" "5" "suffix"
              (Sample.world []) eq_refl ltac:(discriminate))
    as (digits & Hfind & _ & Hrun & _).
  vm_compute in Hfind. injection Hfind as <-.
  apply Hrun. vm_compute. reflexivity.
Defined.

(** C10: a field whose kind is none of String, Bool, Slice, Array, Int and
    Int64 (an unsigned integer, a float, a map, ...) is left as it is by
    [processValueFromString], whatever the string: the call returns [nil]
    and changes neither the field nor the world. *)
Theorem processValueFromString_other_kinds
    (f : StructField) (field : Value) (value : string) (w : World) :
  Kind field <> reflect.String -> Kind field <> reflect.Bool ->
  Kind field <> reflect.Slice -> Kind field <> reflect.Array ->
  Kind field <> reflect.Int -> Kind field <> reflect.Int64 ->
  processValueFromString f field value w = (w, field, Nil).
Proof.
  intros HString HBool HSlice HArray HInt HInt64.
  unfold processValueFromString.
  destruct (Kind field); try reflexivity; congruence.
Qed.

Lemma processValueFromString_other_kinds_witness :
  processValueFromString (Sample.field "Retries" [("default", "3")])
    (VOpaque reflect.Uint) "3" (Sample.world [])
  = (Sample.world [], VOpaque reflect.Uint, Nil)
  /\ processValueFromString (Sample.field "Ratio" [("default", "abc")])
       (VOpaque reflect.Float64) "abc" (Sample.world [])
     = (Sample.world [], VOpaque reflect.Float64, Nil).
Proof.
  split; apply processValueFromString_other_kinds; discriminate.
Defined.

(** What the slice case does with a slice of strings. *)
Lemma appendAll_strings (a l : list string) :
  appendAll (VStrings l) a = (VStrings (l ++ a), Nil).
Proof.
  revert l. induction a as [|x a IH]; intros l; simpl.
  - now rewrite app_nil_r.
  - rewrite IH. now rewrite <- app_assoc.
Qed.

Lemma processValueFromString_strings
    (f : StructField) (l : list string) (value : string) (w : World) :
  processValueFromString f (VStrings l) value w
  = (w,
     VStrings (l ++ if decide (value = EmptyString) then []
                    else strings.Split_comma value),
     Nil).
Proof.
  unfold processValueFromString. cbn [Kind].
  destruct (decide (value = EmptyString)) as [_|_].
  - now rewrite app_nil_r.
  - now rewrite appendAll_strings.
Qed.

(** C5 (amended): for a field of type [[]string], a non-empty value is split
    on the comma and the pieces are appended, in order, to what the field
    already holds; the empty value leaves the field as it is.  The pieces
    joined by commas are the value again and no piece holds a comma.  So a
    field that is empty beforehand resolves [a,b,c] to [a], [b], [c], and
    stays empty on the empty value. *)
Theorem processValueFromString_slice
    (f : StructField) (l : list string) (value : string) (w : World) :
  processValueFromString f (VStrings l) value w
  = (w,
     VStrings (l ++ if decide (value = EmptyString) then []
                    else strings.Split_comma value),
     Nil)
  /\ String.concat "," (strings.Split_comma value) = value
  /\ Forall (fun piece => Bytes.no_comma piece = true) (strings.Split_comma value)
  /\ strings.Split_comma "a,b,c" = ["a"; "b"; "c"].
Proof.
  split; [apply processValueFromString_strings|].
  split; [apply Split_comma_concat|].
  split; [apply Split_comma_no_comma | reflexivity].
Qed.

(** The claim C5 fails on the code: a slice that already holds [x] (from a
    default or an overlay) resolves [a,b,c] to four elements, and keeps its
    element on the empty value. *)
Lemma processValueFromString_slice_appends :
  (let '(_, field, o) :=
     processValueFromString (Sample.field "Items" [("env", "ITEMS")])
       (VStrings ["x"]) "a,b,c" (Sample.world []) in (field, o))
  = (VStrings ["x"; "a"; "b"; "c"], Nil)
  /\ (let '(_, field, o) :=
        processValueFromString (Sample.field "Items" [("default", "")])
          (VStrings ["x"]) EmptyString (Sample.world []) in (field, o))
     = (VStrings ["x"], Nil)
  /\ (let '(_, object, o) :=
        IntoObject (libs := Sample.libs)
          (ObjPtr (VStruct [(Sample.field "Items" [("default", "x"); ("env", "ITEMS")],
                             VStrings [])]))
          [] EmptyString (Sample.world [("ITEMS", "a,b,c")]) in (object, o))
     = (ObjPtr (VStruct [(Sample.field "Items" [("default", "x"); ("env", "ITEMS")],
                          VStrings ["x"; "a"; "b"; "c"])]), Nil).
Proof. repeat split; vm_compute; reflexivity. Qed.

(** ** Induction on values, through the fields of structs *)

Section Value_induction.

Variable P : Value -> Prop.
Hypothesis P_leaf : forall v, Kind v <> reflect.Struct -> P v.
Hypothesis P_opaque_struct : P (VOpaque reflect.Struct).
Hypothesis P_struct :
  forall fs, Forall (fun fx => P (snd fx)) fs -> P (VStruct fs).

Lemma Value_fields_ind (v : Value) : P v.
Proof.
  revert v. fix IH 1. intros v.
  destruct v as [s|b|n|n|l|k|fs]; try (apply P_leaf; discriminate).
  - destruct (decide (k = reflect.Struct)) as [->|Hk];
      [exact P_opaque_struct | now apply P_leaf].
  - apply P_struct. induction fs as [|[f x] fs IHfs]; constructor.
    + exact (IH x).
    + exact IHfs.
Qed.

End Value_induction.

(** ** What a pass leaves alone in the world *)


Lemma same_outside_refl w : same_outside w w.
Proof. repeat split. Qed.

Lemma same_outside_trans w1 w2 w3 :
  same_outside w1 w2 -> same_outside w2 w3 -> same_outside w1 w3.
Proof.
  unfold same_outside. intros (?&?&?&?&?&?) (?&?&?&?&?&?).
  repeat split; congruence.
Qed.

Lemma processValueFromString_outside f field value w :
  same_outside w (fst (fst (processValueFromString f field value w))).
Proof.
  unfold processValueFromString.
  destruct (Kind field); try apply same_outside_refl.
  - destruct (strconv.ParseBool value); [destruct (SetBool _ _)|]; apply same_outside_refl.
  - destruct (strconv.ParseInt value); [destruct (SetInt _ _)|]; apply same_outside_refl.
  - destruct (strconv.ParseInt value); [destruct (SetInt _ _)|]; apply same_outside_refl.
  - destruct (decide _); [apply same_outside_refl|]. destruct (appendAll _ _); apply same_outside_refl.
  - destruct (decide _); [apply same_outside_refl|]. destruct (appendAll _ _); apply same_outside_refl.
  - destruct (decide _).
    + unfold ioutil.TempDir. destruct (tempdir_results w (tempdir_calls w));
        [destruct (SetString _ _)|]; repeat split.
    + destruct (regexp.MatchString value).
      * destruct (regexp.FindStringSubmatch1 value); [|apply same_outside_refl].
        destruct (strconv.Atoi _); [|apply same_outside_refl].
        unfold util.RandomStr. destruct (SetString _ _). repeat split.
      * destruct (SetString _ _). apply same_outside_refl.
Qed.

Lemma load_fields_outside rec source fs :
  Forall (fun fx => forall w, same_outside w (fst (fst (rec (snd fx) w)))) fs ->
  forall setValue w,
    same_outside w (loop_world (load_fields rec source fs setValue w)).
Proof.
  induction 1 as [|[f x] fs Hx Hfs IH]; intros setValue w; cbn [load_fields].
  - apply same_outside_refl.
  - cbn [snd] in Hx. destruct (decide (Kind x = reflect.Struct)).
    + specialize (Hx w). destruct (rec x w) as [[w1 x'] o]. cbn [fst] in Hx.
      destruct (returned o); cbn [loop_world]; [|exact Hx].
      eapply same_outside_trans; [exact Hx | apply IH].
    + destruct (chooseValue source f setValue w) as [setValue' skip].
      destruct skip; cbn [loop_world]; [apply IH|].
      pose proof (processValueFromString_outside f x setValue' w) as Hp.
      destruct (processValueFromString f x setValue' w) as [[w1 x'] o].
      cbn [fst] in Hp.
      destruct o; cbn [loop_world]; try exact Hp.
      eapply same_outside_trans; [exact Hp | apply IH].
Qed.

Lemma load_outside source v :
  forall w, same_outside w (fst (fst (load source v w))).
Proof.
  induction v as [v Hv| |fs IH] using Value_fields_ind; intros w.
  - destruct v; try apply same_outside_refl. now contradiction Hv.
  - apply same_outside_refl.
  - cbn [load fst]. now apply load_fields_outside.
Qed.

(** ** The loop of [load] *)

Lemma load_fields_length rec source fs :
  forall setValue w,
    length (loop_fields (load_fields rec source fs setValue w)) = length fs.
Proof.
  induction fs as [|[f x] fs IH]; intros setValue w; cbn [load_fields]; [reflexivity|].
  destruct (decide (Kind x = reflect.Struct)).
  - destruct (rec x w) as [[w1 x'] o].
    destruct (returned o); cbn [loop_fields length]; [now rewrite IH | reflexivity].
  - destruct (chooseValue source f setValue w) as [setValue' skip].
    destruct skip; cbn [loop_fields length]; [now rewrite IH|].
    destruct (processValueFromString f x setValue' w) as [[w1 x'] o].
    destruct o; cbn [loop_fields length]; try reflexivity. now rewrite IH.
Qed.

(** The loop over [pre ++ post] is the loop over [pre] followed, when that
    one came to its end, by the loop over [post]. *)
Lemma load_fields_app rec source pre post :
  forall setValue w,
    load_fields rec source (pre ++ post) setValue w
    = let r1 := load_fields rec source pre setValue w in
      match loop_outcome r1 with
      | Nil =>
          let r2 := load_fields rec source post (loop_setValue r1) (loop_world r1) in
          mkLoop (loop_world r2) (loop_setValue r2)
                 (loop_fields r1 ++ loop_fields r2) (loop_outcome r2)
      | o => mkLoop (loop_world r1) (loop_setValue r1) (loop_fields r1 ++ post) o
      end.
Proof.
  induction pre as [|[f x] pre IH]; intros setValue w.
  - cbn. now destruct (load_fields rec source post setValue w).
  - cbn [app load_fields].
    destruct (decide (Kind x = reflect.Struct)).
    + destruct (rec x w) as [[w1 x'] o].
      destruct (returned o) eqn:Hret.
      * rewrite IH. cbn zeta.
        destruct (load_fields rec source pre setValue w1) as [wa sa fa oa].
        cbn [loop_outcome loop_world loop_setValue loop_fields].
        destruct oa; reflexivity.
      * cbn [loop_outcome loop_world loop_setValue loop_fields].
        destruct o; try discriminate; reflexivity.
    + destruct (chooseValue source f setValue w) as [setValue' skip].
      destruct skip.
      * rewrite IH. cbn zeta.
        destruct (load_fields rec source pre setValue' w) as [wa sa fa oa].
        cbn [loop_outcome loop_world loop_setValue loop_fields].
        destruct oa; reflexivity.
      * destruct (processValueFromString f x setValue' w) as [[w1 x'] o].
        destruct o; cbn [loop_outcome loop_world loop_setValue loop_fields];
          try reflexivity.
        rewrite IH. cbn zeta.
        destruct (load_fields rec source pre setValue' w1) as [wa sa fa oa].
        cbn [loop_outcome loop_world loop_setValue loop_fields].
        destruct oa; reflexivity.
Qed.


Lemma load_fields_head_leaf rec source f x rest setValue w :
  Kind x <> reflect.Struct ->
  loop_fields (load_fields rec source ((f, x) :: rest) setValue w) !! 0%nat
  = Some (f, leaf_after source f x setValue w).
Proof.
  intros Hx. cbn [load_fields]. unfold leaf_after.
  destruct (decide (Kind x = reflect.Struct)); [contradiction|].
  destruct (chooseValue source f setValue w) as [setValue' skip].
  destruct skip; [reflexivity|].
  destruct (processValueFromString f x setValue' w) as [[w1 x'] o].
  destruct o; reflexivity.
Qed.

Lemma load_fields_head_struct rec source f x rest setValue w :
  Kind x = reflect.Struct ->
  loop_fields (load_fields rec source ((f, x) :: rest) setValue w) !! 0%nat
  = Some (f, snd (fst (rec x w))).
Proof.
  intros Hx. cbn [load_fields].
  destruct (decide (Kind x = reflect.Struct)); [|contradiction].
  destruct (rec x w) as [[w1 x'] o]. destruct (returned o); reflexivity.
Qed.

(** The field of index [i] after the loop, when the loop passes the fields
    before it. *)
Lemma load_fields_at rec source fs i f x :
  forall w,
    fs !! i = Some (f, x) ->
    loop_outcome (load_fields rec source (take i fs) EmptyString w) = Nil ->
    loop_fields (load_fields rec source fs EmptyString w) !! i
    = loop_fields
        (load_fields rec source ((f, x) :: drop (S i) fs)
           (loop_setValue (load_fields rec source (take i fs) EmptyString w))
           (loop_world (load_fields rec source (take i fs) EmptyString w)))
      !! 0%nat.
Proof.
  intros w Hi Hpre.
  rewrite <- (take_drop_middle fs i (f, x) Hi) at 1.
  rewrite load_fields_app. cbn zeta. rewrite Hpre. cbn [loop_fields].
  pose proof (load_fields_length rec source (take i fs) EmptyString w) as Hlen.
  rewrite length_take in Hlen.
  apply lookup_lt_Some in Hi.
  rewrite lookup_app_r by lia.
  replace (i - length _)%nat with 0%nat by lia. reflexivity.
Qed.

(** The value [load] leaves in a leaf field that its walk arrives at. *)
Lemma load_at source p :
  forall v w w1 setValue f x,
    arrive source p v w = Some (w1, setValue, f, x) ->
    Kind x <> reflect.Struct ->
    get p (snd (fst (load source v w)))
    = Some (leaf_after source f x setValue w1).
Proof.
  induction p as [|i p IH]; intros v w w1 setValue f x Harr Hx.
  - discriminate.
  - destruct v as [| | | | | |fs]; try discriminate.
    cbn [arrive] in Harr.
    destruct (loop_outcome (load_fields (load source) source (take i fs) EmptyString w))
      eqn:Hpre; try discriminate.
    destruct (fs !! i) as [[f0 x0]|] eqn:Hi; [|discriminate].
    cbn [load fst snd get].
    rewrite (load_fields_at _ _ _ _ _ _ _ Hi Hpre).
    destruct p as [|j p].
    + injection Harr as <- <- <- <-.
      rewrite load_fields_head_leaf by exact Hx. reflexivity.
    + assert (Kind x0 = reflect.Struct) as Hx0
        by (destruct x0; try discriminate; reflexivity).
      rewrite load_fields_head_struct by exact Hx0.
      apply (IH _ _ _ _ _ _ Harr Hx).
Qed.

Lemma arrive_outside source p :
  forall v w w1 setValue f x,
    arrive source p v w = Some (w1, setValue, f, x) -> same_outside w w1.
Proof.
  induction p as [|i p IH]; intros v w w1 setValue f x Harr; [discriminate|].
  destruct v as [| | | | | |fs]; try discriminate.
  cbn [arrive] in Harr.
  pose proof (load_fields_outside (load source) source (take i fs)
                ltac:(apply Forall_forall; intros; apply load_outside)
                EmptyString w) as Hout.
  destruct (loop_outcome _); try discriminate.
  destruct (fs !! i) as [[f0 x0]|]; [|discriminate].
  destruct p as [|j p].
  - injection Harr as <- <- <- <-. exact Hout.
  - eapply same_outside_trans; [exact Hout | eapply IH; exact Harr].
Qed.

(** For a field that is neither a struct nor a slice nor an array, what
    [processValueFromString] assigns does not depend on what the field held. *)
Lemma processValueFromString_zeroOf f x value w w2 x' :
  Kind x <> reflect.Slice -> Kind x <> reflect.Array ->
  processValueFromString f (zeroOf x) value w = (w2, x', Nil) ->
  processValueFromString f x value w = (w2, x', Nil).
Proof.
  intros HSlice HArray.
  destruct x as [s|b|n|n|l|k|fs]; cbn [zeroOf]; try (intros Hz; exact Hz);
    try (now contradiction HSlice).
  - unfold processValueFromString. cbn [Kind SetString].
    destruct (decide (value = "__TMP_DIR__")).
    + destruct (ioutil.TempDir w) as [[dir|err] w0]; [tauto | discriminate].
    + destruct (regexp.MatchString value); [|tauto].
      destruct (regexp.FindStringSubmatch1 value); [|discriminate].
      destruct (strconv.Atoi _); [|discriminate].
      destruct (util.RandomStr _ _). tauto.
  - unfold processValueFromString. cbn [Kind SetBool].
    destruct (strconv.ParseBool value); [tauto | discriminate].
  - unfold processValueFromString. cbn [Kind SetInt].
    destruct (strconv.ParseInt value); [tauto | discriminate].
  - unfold processValueFromString. cbn [Kind SetInt].
    destruct (strconv.ParseInt value); [tauto | discriminate].
Qed.

Lemma loadDefaults_outside v w : same_outside w (fst (fst (loadDefaults v w))).
Proof.
  unfold loadDefaults. pose proof (load_outside "default" v w) as Hout.
  destruct (load "default" v w) as [[w' v'] o]. exact Hout.
Qed.

Lemma is_empty_false s : s <> EmptyString -> Bytes.is_empty s = false.
Proof. destruct s; [congruence | reflexivity]. Qed.

(** In the environment pass a field whose variable is unset or empty is
    passed over, and keeps its value. *)
Lemma leaf_after_env_unset f x setValue w env :
  reflect.Lookup (reflect.Tag f) Tags.EnvVarTag = Some env ->
  os.Getenv w env = EmptyString ->
  leaf_after "env" f x setValue w = x.
Proof.
  intros Htag Henv. unfold leaf_after, chooseValue.
  destruct (decide ("env" = "default")) as [Hbad|_]; [discriminate|].
  destruct (decide ("env" = "env")) as [_|Hbad]; [|congruence].
  now rewrite Htag, Henv.
Qed.

(** In the environment pass a field without an [env] tag is not passed
    over: it is assigned from the local [setValue] as it stands. *)
Lemma leaf_after_env_untagged f x setValue w :
  reflect.Lookup (reflect.Tag f) Tags.EnvVarTag = None ->
  leaf_after "env" f x setValue w
  = snd (fst (processValueFromString f x setValue w)).
Proof.
  intros Htag. unfold leaf_after, chooseValue.
  destruct (decide ("env" = "default")) as [Hbad|_]; [discriminate|].
  destruct (decide ("env" = "env")) as [_|Hbad]; [|congruence].
  now rewrite Htag.
Qed.

(** In the default pass a field without a [default] tag keeps its value. *)
Lemma leaf_after_default_untagged f x setValue w :
  reflect.Lookup (reflect.Tag f) Tags.DefaultTag = None ->
  leaf_after "default" f x setValue w = x.
Proof.
  intros Htag. unfold leaf_after, chooseValue.
  destruct (decide ("default" = "default")) as [_|Hbad]; [|congruence].
  now rewrite Htag.
Qed.

(** The two wrappers never return an error. *)
Lemma loadDefaults_no_error v w w' v' e : loadDefaults v w <> (w', v', Err e).
Proof.
  unfold loadDefaults. destruct (load "default" v w) as [[w1 v1] o1].
  destruct o1; cbn; congruence.
Qed.

Lemma loadFromEnv_no_error v w w' v' e : loadFromEnv v w <> (w', v', Err e).
Proof.
  unfold loadFromEnv. destruct (load "env" v w) as [[w1 v1] o1].
  destruct o1; cbn; congruence.
Qed.

(** ** [IntoObject] *)

Section Resolution.

Context {libs : Libraries}.





Lemma loadConfigs_error configs :
  forall v w v' e,
    loadConfigs configs v w = (v', Err e) ->
    exists cause, e = Errorf "error loading config from YAML: %v" [inr cause].
Proof.
  induction configs as [|c configs IH]; intros v w v' e Hload; [discriminate|].
  cbn [loadConfigs] in Hload.
  destruct (loadYAMLFromConfigs v c w) as [v1 o1].
  destruct o1; try discriminate; eauto.
  injection Hload as <- <-. eauto.
Qed.

Lemma loadLayers_error v configs customConfig w w3 v3 e :
  loadLayers v configs customConfig w = (w3, v3, Err e) ->
  exists cause,
    e = Errorf "error loading config from YAML: %v" [inr cause]
    \/ e = Errorf "error loading custom config from YAML: %v" [inr cause].
Proof.
  unfold loadLayers, loadDefaults.
  destruct (load "default" v w) as [[w1 v1] o1].
  destruct (returned o1) eqn:Hret.
  - destruct (loadConfigs configs v1 w1) as [v2 o2] eqn:Hc.
    destruct o2.
    + destruct (decide (customConfig = EmptyString)); [discriminate|].
      destruct (loadYAMLFromFile v2 customConfig w1) as [v4 o4].
      destruct o4; try discriminate. intros [= <- <- <-]. eauto.
    + intros [= <- <- <-].
      apply loadConfigs_error in Hc as [cause ->]. eauto.
    + discriminate.
    + discriminate.
  - destruct o1; discriminate.
Qed.

Lemma loadLayers_outside v configs customConfig w :
  same_outside w (fst (fst (loadLayers v configs customConfig w))).
Proof.
  unfold loadLayers. pose proof (loadDefaults_outside v w) as Hout.
  destruct (loadDefaults v w) as [[w1 v1] o1]. cbn [fst] in Hout.
  destruct o1; try exact Hout.
  destruct (loadConfigs configs v1 w1) as [v2 o2].
  destruct o2; try exact Hout.
  destruct (decide _); [exact Hout|].
  destruct (loadYAMLFromFile v2 customConfig w1) as [v4 o4].
  destruct o4; exact Hout.
Qed.

(** X14: every error [IntoObject] returns for a pointer target comes from an
    overlay: the branches that wrap an error of the default pass and of the
    environment pass are never taken. *)
Lemma IntoObject_error_is_overlay
    (v : Value) (configs : list string) (customConfig : string) (w : World)
    (w' : World) (object' : Object) (e : error) :
  IntoObject (ObjPtr v) configs customConfig w = (w', object', Err e) ->
  exists cause,
    e = Errorf "error loading config from YAML: %v" [inr cause]
    \/ e = Errorf "error loading custom config from YAML: %v" [inr cause].
Proof.
  unfold IntoObject.
  destruct (loadLayers v configs customConfig w) as [[w3 v3] o3] eqn:Hl.
  destruct o3; try discriminate.
  - pose proof (loadFromEnv_no_error v3 w3) as Hno.
    destruct (loadFromEnv v3 w3) as [[w4 v4] o4].
    destruct o4; try discriminate. now contradiction (Hno w4 v4 e0).
  - intros [= <- <- <-]. eapply loadLayers_error; eauto.
Qed.

Lemma loadConfigs_app_eq pre post :
  forall v w,
    loadConfigs (pre ++ post) v w
    = match loadConfigs pre v w with
      | (mid, Nil) => loadConfigs post mid w
      | r => r
      end.
Proof.
  induction pre as [|c pre IH]; intros v w; [reflexivity|].
  cbn [app loadConfigs].
  destruct (loadYAMLFromConfigs v c w) as [v1 o1].
  destruct o1; try reflexivity. apply IH.
Qed.

(** C7: when a name of [configs] is not in the bundle, [IntoObject] fails
    with an error that names that overlay; when the custom overlay's
    resolved path is no file, it fails with the [*os.PathError] that names
    that path.  In both cases the target and the world are those the passes
    before the failure left: no later overlay is merged and the
    environment pass does not run. *)
Theorem IntoObject_overlay_missing
    (v : Value) (configs : list string) (customConfig : string) (w : World)
    (w1 : World) (v1 v2 : Value) :
  loadDefaults v w = (w1, v1, Nil) ->
  (forall pre name post,
     configs = pre ++ name :: post ->
     loadConfigs pre v1 w1 = (v2, Nil) ->
     packaged w !! filepath_Join "/configs" (name +:+ ".yaml") = None ->
     IntoObject (ObjPtr v) configs customConfig w
     = (w1, ObjPtr v2,
        Err (Errorf "error loading config from YAML: %v"
               [inr (Errorf "error trying to open config %s: %v"
                       [inl name; inr pkger.ErrNotExist])])))
  /\ (forall dir path,
        loadConfigs configs v1 w1 = (v2, Nil) ->
        customConfig <> EmptyString ->
        os.Getwd w = inl dir ->
        filepath_Abs (filepath_Join dir customConfig) = inl path ->
        files w !! filepath_Clean path = None ->
        IntoObject (ObjPtr v) configs customConfig w
        = (w1, ObjPtr v2,
           Err (Errorf "error loading custom config from YAML: %v"
                  [inr (PathError "open" (filepath_Clean path)
                          "no such file or directory")]))).
Proof.
  intros Hdef.
  pose proof (loadDefaults_outside v w) as Hout. rewrite Hdef in Hout.
  destruct Hout as (_ & Hcwd & Hfiles & Hpack & _). cbn [fst] in *.
  split.
  - intros pre name post -> Hpre Hmiss.
    unfold IntoObject, loadLayers. rewrite Hdef.
    rewrite loadConfigs_app_eq, Hpre. cbn [loadConfigs].
    unfold loadYAMLFromConfigs, pkger.Open_ReadAll. rewrite Hpack, Hmiss.
    reflexivity.
  - intros dir path Hload Hcustom Hwd Habs Hmiss.
    unfold IntoObject, loadLayers. rewrite Hdef, Hload.
    destruct (decide (customConfig = EmptyString)); [contradiction|].
    unfold loadYAMLFromFile, os.Getwd, ioutil.ReadFile in *.
    rewrite Hcwd, Hwd, Habs, Hfiles, Hmiss. reflexivity.
Qed.

(** C4 (amended): take a field that declares an environment variable, the
    variable being set to a non-empty string.  When the earlier passes
    succeed, the walk of the environment pass arrives at the field and
    [IntoObject] completes, then:
    - a string, bool, int or int64 field for whose type the string parses
      holds the parsed environment value, whatever the default and the
      overlays had put there: what [processValueFromString] assigns to a
      zero field of that type, that is the boolean of [strconv.ParseBool],
      the number of [strconv.ParseInt], or the string itself when it is no
      directive;
    - a slice of strings holds what the earlier passes left followed by the
      pieces of the environment value;
    - a field of any other kind (unsigned, float, int32, map, ...) is as the
      earlier passes left it: the environment value is not assigned. *)
Theorem IntoObject_env_overrides
    (v : Value) (configs : list string) (customConfig : string) (w : World)
    (w3 : World) (v3 : Value) (w' : World) (final : Value)
    (p : list nat) (w1 : World) (setValue : string)
    (f : StructField) (x : Value) (env s : string) :
  loadLayers v configs customConfig w = (w3, v3, Nil) ->
  IntoObject (ObjPtr v) configs customConfig w = (w', ObjPtr final, Nil) ->
  arrive "env" p v3 w3 = Some (w1, setValue, f, x) ->
  reflect.Lookup (reflect.Tag f) Tags.EnvVarTag = Some env ->
  os.Getenv w env = s -> s <> EmptyString ->
  (scalar x = true ->
   forall w2 x',
     processValueFromString f (zeroOf x) s w1 = (w2, x', Nil) ->
     get p final = Some x')
  /\ (forall old b,
        x = VBool old -> strconv.ParseBool s = inl b ->
        get p final = Some (VBool b))
  /\ (forall old n,
        x = VInt old -> strconv.ParseInt s = inl n ->
        get p final = Some (VInt n))
  /\ (forall old n,
        x = VInt64 old -> strconv.ParseInt s = inl n ->
        get p final = Some (VInt64 n))
  /\ (forall old,
        x = VString old -> plain s = true ->
        get p final = Some (VString s))
  /\ (forall l,
        x = VStrings l ->
        get p final = Some (VStrings (l ++ strings.Split_comma s)))
  /\ (Kind x <> reflect.Struct ->
      Kind x <> reflect.String -> Kind x <> reflect.Bool ->
      Kind x <> reflect.Slice -> Kind x <> reflect.Array ->
      Kind x <> reflect.Int -> Kind x <> reflect.Int64 ->
      get p final = Some x).
Proof.
  intros Hlayers Hinto Harr Htag Henv Hs.
  assert (final = snd (fst (load "env" v3 w3))) as ->.
  { unfold IntoObject in Hinto. rewrite Hlayers in Hinto.
    unfold loadFromEnv in Hinto.
    destruct (load "env" v3 w3) as [[w4 v4] o4].
    destruct o4; cbn in Hinto |- *; congruence. }
  assert (forall y, Kind x <> reflect.Struct ->
                    leaf_after "env" f x setValue w1 = y ->
                    get p (snd (fst (load "env" v3 w3))) = Some y) as Hat.
  { intros y HStruct <-. apply (load_at _ _ _ _ _ _ _ _ Harr HStruct). }
  assert (leaf_after "env" f x setValue w1
          = snd (fst (processValueFromString f x s w1))) as Hleaf.
  { unfold leaf_after, chooseValue.
    destruct (decide ("env" = "default")) as [Hbad|_]; [discriminate|].
    destruct (decide ("env" = "env")) as [_|Hbad]; [|congruence].
    rewrite Htag.
    assert (os.Getenv w1 env = s) as ->.
    { pose proof (loadLayers_outside v configs customConfig w) as H3.
      rewrite Hlayers in H3. cbn [fst] in H3.
      pose proof (arrive_outside _ _ _ _ _ _ _ _ Harr) as H1.
      destruct (same_outside_trans _ _ _ H3 H1) as (Hsame & _).
      unfold os.Getenv in *. now rewrite Hsame. }
    now rewrite (is_empty_false s Hs). }
  repeat apply conj.
  - intros Hscalar w2 x' Hparse.
    assert (Kind x <> reflect.Struct /\ Kind x <> reflect.Slice
            /\ Kind x <> reflect.Array) as (HStruct & HSlice & HArray)
      by (destruct x; try discriminate; repeat split; discriminate).
    apply Hat; [exact HStruct|]. rewrite Hleaf.
    now rewrite (processValueFromString_zeroOf _ _ _ _ _ _ HSlice HArray Hparse).
  - intros old b -> Hb. apply Hat; [discriminate|]. rewrite Hleaf.
    unfold processValueFromString. cbn [Kind]. now rewrite Hb.
  - intros old n -> Hn. apply Hat; [discriminate|]. rewrite Hleaf.
    unfold processValueFromString. cbn [Kind]. now rewrite Hn.
  - intros old n -> Hn. apply Hat; [discriminate|]. rewrite Hleaf.
    unfold processValueFromString. cbn [Kind]. now rewrite Hn.
  - intros old -> Hplain. apply Hat; [discriminate|]. rewrite Hleaf.
    unfold plain in Hplain. apply andb_true_iff in Hplain as [Htmp Hrnd].
    apply negb_true_iff in Htmp, Hrnd. apply bool_decide_eq_false in Htmp.
    unfold processValueFromString. cbn [Kind].
    destruct (decide (s = "__TMP_DIR__")); [contradiction|].
    now rewrite Hrnd.
  - intros l ->. apply Hat; [discriminate|]. rewrite Hleaf.
    rewrite processValueFromString_strings.
    destruct (decide (s = EmptyString)); [contradiction | reflexivity].
  - intros HStruct HString HBool HSlice HArray HInt HInt64.
    apply Hat; [exact HStruct|]. rewrite Hleaf.
    unfold processValueFromString.
    destruct (Kind x); try reflexivity; congruence.
Qed.

End Resolution.

(** ** The theorems at work on the sample instance *)


Lemma IntoObject_overlay_missing_witness :
  snd (IntoObject (libs := Sample.libs) (ObjPtr (Examples.named EmptyString))
         ["a"; "missing"; "b"] EmptyString (Sample.world [("NAME", "e")]))
  = Err (Errorf "error loading config from YAML: %v"
           [inr (Errorf "error trying to open config %s: %v"
                   [inl "missing"; inr pkger.ErrNotExist])])
  /\ snd (fst (IntoObject (libs := Sample.libs) (ObjPtr (Examples.named EmptyString))
                 ["a"; "missing"; "b"] EmptyString (Sample.world [("NAME", "e")])))
     = ObjPtr (Examples.named "A")
  /\ snd (IntoObject (libs := Sample.libs) (ObjPtr (Examples.named EmptyString))
            ["a"] "nowhere.yaml" (Sample.world [("NAME", "e")]))
     = Err (Errorf "error loading custom config from YAML: %v"
              [inr (PathError "open" "/work/nowhere.yaml"
                      "no such file or directory")]).
Proof.
  set (w1 := fst (fst (loadDefaults (Examples.named EmptyString)
                         (Sample.world [("NAME", "e")])))).
  assert (loadDefaults (Examples.named EmptyString) (Sample.world [("NAME", "e")])
          = (w1, Examples.named "d", Nil)) as Hdef
    by (vm_compute; reflexivity).
  destruct (IntoObject_overlay_missing (libs := Sample.libs)
              (Examples.named EmptyString) ["a"; "missing"; "b"] EmptyString
              (Sample.world [("NAME", "e")]) w1 _ (Examples.named "A") Hdef)
    as [Hbundled _].
  rewrite (Hbundled ["a"] "missing" ["b"] eq_refl)
    by (vm_compute; reflexivity).
  destruct (IntoObject_overlay_missing (libs := Sample.libs)
              (Examples.named EmptyString) ["a"] "nowhere.yaml"
              (Sample.world [("NAME", "e")]) w1 _ (Examples.named "A") Hdef)
    as [_ Hcustom].
  rewrite (Hcustom "/work" "/work/nowhere.yaml")
    by (vm_compute; first [reflexivity | discriminate]).
  repeat split.
Defined.

Lemma IntoObject_env_overrides_witness :
  get [0%nat]
    (match snd (fst (IntoObject (libs := Sample.libs)
                       (ObjPtr (Examples.named EmptyString)) ["a"; "b"]
                       "custom.yaml" (Sample.world [("NAME", "e")]))) with
     | ObjPtr final => final
     | _ => VOpaque reflect.Invalid
     end)
  = Some (VString "e").
Proof.
  set (w3 := fst (fst (loadLayers (libs := Sample.libs)
                         (Examples.named EmptyString) ["a"; "b"] "custom.yaml"
                         (Sample.world [("NAME", "e")])))).
  assert (loadLayers (libs := Sample.libs) (Examples.named EmptyString)
            ["a"; "b"] "custom.yaml" (Sample.world [("NAME", "e")])
          = (w3, Examples.named "custom", Nil)) as Hlayers
    by (vm_compute; reflexivity).
  set (w' := fst (fst (IntoObject (libs := Sample.libs)
                         (ObjPtr (Examples.named EmptyString)) ["a"; "b"]
                         "custom.yaml" (Sample.world [("NAME", "e")])))).
  assert (IntoObject (libs := Sample.libs) (ObjPtr (Examples.named EmptyString))
            ["a"; "b"] "custom.yaml" (Sample.world [("NAME", "e")])
          = (w', ObjPtr (Examples.named "e"), Nil)) as Hinto
    by (vm_compute; reflexivity).
  rewrite Hinto. cbn [fst snd].
  destruct (IntoObject_env_overrides (libs := Sample.libs)
              (Examples.named EmptyString) ["a"; "b"] "custom.yaml"
              (Sample.world [("NAME", "e")]) w3 (Examples.named "custom")
              w' (Examples.named "e")
              [0%nat] w3 EmptyString
              (Sample.field "Name" [("default", "d"); ("env", "NAME")])
              (VString "custom") "NAME" "e"
              Hlayers Hinto eq_refl eq_refl eq_refl ltac:(discriminate))
    as [Hscalar _].
  apply (Hscalar eq_refl w3 (VString "e")).
  reflexivity.
Defined.

(** The claim C4 fails on the code: a slice field with a default and a set
    environment variable ends with the default's element followed by the
    environment's, not with the parsed environment value. *)
Lemma IntoObject_env_appends_to_slice :
  (let '(_, object, o) :=
     IntoObject (libs := Sample.libs) (ObjPtr (Examples.items [])) []
       EmptyString (Sample.world [("ITEMS", "y")]) in (object, o))
  = (ObjPtr (Examples.items ["x"; "y"]), Nil)
  /\ (let '(_, parsed, o) :=
        processValueFromString
          (Sample.field "Items" [("default", "x"); ("env", "ITEMS")])
          (zeroOf (VStrings ["x"])) "y" (Sample.world [("ITEMS", "y")]) in
      (parsed, o))
     = (VStrings ["y"], Nil).
Proof. split; vm_compute; reflexivity. Qed.

(** C1 (the code departs from the claim): the default [maybe] of a boolean
    field does not parse, and [load] returns the field-level error that
    names the field; yet [loadDefaults] drops it and [IntoObject] returns
    [nil], the field left at its zero value.  The same happens in the
    environment pass when the variable holds [maybe]. *)
Theorem IntoObject_swallows_field_errors :
  snd (load "default" (Examples.debug false) (Sample.world []))
  = Err (Errorf "error parsing bool value for field %s: %v"
           [inl "Debug";
            inr (NumError (strconv.mkNumError "ParseBool" "maybe" strconv.ErrSyntax))])
  /\ (let '(_, object, o) :=
        IntoObject (libs := Sample.libs) (ObjPtr (Examples.debug false)) []
          EmptyString (Sample.world []) in (object, o))
     = (ObjPtr (Examples.debug false), Nil)
  /\ snd (load "env" (Examples.debug false) (Sample.world [("DEBUG", "maybe")]))
     = Err (Errorf "error parsing bool value for field %s: %v"
              [inl "Debug";
               inr (NumError (strconv.mkNumError "ParseBool" "maybe" strconv.ErrSyntax))])
  /\ snd (loadFromEnv (Examples.debug false) (Sample.world [("DEBUG", "maybe")]))
     = Nil.
Proof. repeat split; vm_compute; reflexivity. Qed.

(** C2 (the code departs from the claim): a string field with a default and
    no [env] tag holds its default after the passes before the environment;
    the environment pass then assigns it the empty local [setValue], and
    after a field whose variable is set, that field's value. *)
Theorem loadFromEnv_overwrites_untagged_fields :
  (let '(_, v, o) :=
     loadLayers (libs := Sample.libs) (Examples.untagged EmptyString) []
       EmptyString (Sample.world []) in (v, o))
  = (Examples.untagged "d", Nil)
  /\ (let '(_, object, o) :=
        IntoObject (libs := Sample.libs) (ObjPtr (Examples.untagged EmptyString))
          [] EmptyString (Sample.world []) in (object, o))
     = (ObjPtr (Examples.untagged EmptyString), Nil)
  /\ (let '(_, v, o) :=
        loadFromEnv
          (VStruct [(Sample.field "Name" [("env", "NAME")], VString "n");
                    (Sample.field "Owner" [], VString "o")])
          (Sample.world [("NAME", "e")]) in (v, o))
     = (VStruct [(Sample.field "Name" [("env", "NAME")], VString "e");
                 (Sample.field "Owner" [], VString "e")], Nil).
Proof. repeat split; vm_compute; reflexivity. Qed.

(** * Further properties of the package *)

(** ** What an assignment keeps *)

Lemma appendAll_zeroOf (a : list string) :
  forall field, zeroOf (fst (appendAll field a)) = zeroOf field.
Proof.
  induction a as [|x a IH]; intros field; [reflexivity|].
  cbn [appendAll]. destruct field; try reflexivity.
  cbn [SetAppend]. now rewrite IH.
Qed.

(** An assignment never changes the type of the field. *)
Lemma processValueFromString_zeroOf_result f x value w :
  zeroOf (snd (fst (processValueFromString f x value w))) = zeroOf x.
Proof.
  unfold processValueFromString.
  destruct x as [s|b|n|n|l|k|fs]; cbn [Kind].
  - destruct (decide _).
    + destruct (ioutil.TempDir w) as [[dir|err] w0]; reflexivity.
    + destruct (regexp.MatchString value); [|reflexivity].
      destruct (regexp.FindStringSubmatch1 value); [|reflexivity].
      destruct (strconv.Atoi _); [|reflexivity].
      destruct (util.RandomStr _ _). reflexivity.
  - destruct (strconv.ParseBool value); reflexivity.
  - destruct (strconv.ParseInt value); reflexivity.
  - destruct (strconv.ParseInt value); reflexivity.
  - destruct (decide _); [reflexivity|].
    pose proof (appendAll_zeroOf (strings.Split_comma value) (VStrings l)) as Ha.
    destruct (appendAll _ _). exact Ha.
  - destruct k; try reflexivity;
      repeat match goal with
             | |- context [decide ?P] => destruct (decide P)
             | |- context [ioutil.TempDir ?w] =>
                 destruct (ioutil.TempDir w) as [[?|?] ?]
             | |- context [regexp.MatchString ?v] => destruct (regexp.MatchString v)
             | |- context [regexp.FindStringSubmatch1 ?v] =>
                 destruct (regexp.FindStringSubmatch1 v)
             | |- context [strconv.Atoi ?d] => destruct (strconv.Atoi d)
             | |- context [util.RandomStr ?n ?w] => destruct (util.RandomStr n w)
             | |- context [strconv.ParseBool ?v] => destruct (strconv.ParseBool v)
             | |- context [strconv.ParseInt ?v] => destruct (strconv.ParseInt v)
             end; try reflexivity.
    + pose proof (appendAll_zeroOf (strings.Split_comma value) (VOpaque reflect.Array)) as Ha.
      destruct (appendAll _ _). exact Ha.
    + pose proof (appendAll_zeroOf (strings.Split_comma value) (VOpaque reflect.Slice)) as Ha.
      destruct (appendAll _ _). exact Ha.
  - reflexivity.
Qed.

Lemma zeroOf_Kind x y : zeroOf x = zeroOf y -> Kind x = Kind y.
Proof. destruct x, y; cbn; congruence. Qed.

Lemma skeleton_leaf x : Kind x <> reflect.Struct -> skeleton x = zeroOf x.
Proof. destruct x; try reflexivity. now intros []. Qed.

Lemma leaf_after_zeroOf source f x setValue w :
  zeroOf (leaf_after source f x setValue w) = zeroOf x.
Proof.
  unfold leaf_after. destruct (chooseValue source f setValue w) as [s skip].
  destruct skip; [reflexivity | apply processValueFromString_zeroOf_result].
Qed.

Lemma field_at_get p :
  forall v f x, field_at p v = Some (f, x) -> get p v = Some x.
Proof.
  induction p as [|i p IH]; intros v f x Hat; [discriminate|].
  destruct v as [| | | | | |fs]; try discriminate.
  cbn [field_at get] in *.
  destruct (fs !! i) as [[f0 x0]|]; [|discriminate].
  destruct p as [|j p].
  - now injection Hat as <- <-.
  - eapply IH; eauto.
Qed.

(** ** Fields the loop does not arrive at, or passes over *)

(** When the loop ends before the field of index [i], that field is as it
    was. *)
Lemma load_fields_at_stopped rec source fs i fx :
  forall w,
    fs !! i = Some fx ->
    loop_outcome (load_fields rec source (take i fs) EmptyString w) <> Nil ->
    loop_fields (load_fields rec source fs EmptyString w) !! i = Some fx.
Proof.
  intros w Hi Hpre.
  rewrite <- (take_drop_middle fs i fx Hi) at 1.
  rewrite load_fields_app. cbn zeta.
  pose proof (load_fields_length rec source (take i fs) EmptyString w) as Hlen.
  rewrite length_take in Hlen. apply lookup_lt_Some in Hi.
  destruct (loop_outcome (load_fields rec source (take i fs) EmptyString w));
    [congruence| | |]; cbn [loop_fields];
    (rewrite lookup_app_r by lia);
    (replace (i - length _)%nat with 0%nat by lia); reflexivity.
Qed.

(** A leaf field for which lines 86-97 always say [continue] keeps its
    value, wherever it lies and however the walk goes. *)
Lemma load_keeps_skipped source p :
  forall v w f x,
    field_at p v = Some (f, x) ->
    Kind x <> reflect.Struct ->
    (forall setValue w', environ w' = environ w ->
                         snd (chooseValue source f setValue w') = true) ->
    get p (snd (fst (load source v w))) = Some x.
Proof.
  induction p as [|i p IH]; intros v w f x Hat Hx Hskip; [discriminate|].
  destruct v as [| | | | | |fs]; try discriminate.
  cbn [field_at] in Hat.
  destruct (fs !! i) as [[f0 x0]|] eqn:Hi; [|discriminate].
  cbn [load fst snd get].
  pose proof (load_fields_outside (load source) source (take i fs)
                ltac:(apply Forall_forall; intros; apply load_outside)
                EmptyString w) as (Henv & _).
  destruct (loop_outcome (load_fields (load source) source (take i fs) EmptyString w))
    eqn:Hpre.
  - rewrite (load_fields_at _ _ _ _ _ _ _ Hi Hpre).
    destruct p as [|j p].
    + injection Hat as <- <-.
      rewrite load_fields_head_leaf by exact Hx.
      unfold leaf_after.
      specialize (Hskip (loop_setValue (load_fields (load source) source (take i fs) EmptyString w))
                        _ Henv).
      destruct (chooseValue _ _ _ _) as [s skip]. cbn [snd] in Hskip.
      now rewrite Hskip.
    + assert (Kind x0 = reflect.Struct) as Hx0
        by (destruct x0; try discriminate; reflexivity).
      rewrite load_fields_head_struct by exact Hx0.
      apply (IH _ _ _ _ Hat Hx).
      intros setValue w' Hw'. apply Hskip. congruence.
  - rewrite (load_fields_at_stopped _ _ _ _ _ _ Hi) by (rewrite Hpre; discriminate).
    destruct p as [|j p]; [now injection Hat as <- <-|].
    eapply field_at_get; eauto.
  - rewrite (load_fields_at_stopped _ _ _ _ _ _ Hi) by (rewrite Hpre; discriminate).
    destruct p as [|j p]; [now injection Hat as <- <-|].
    eapply field_at_get; eauto.
  - rewrite (load_fields_at_stopped _ _ _ _ _ _ Hi) by (rewrite Hpre; discriminate).
    destruct p as [|j p]; [now injection Hat as <- <-|].
    eapply field_at_get; eauto.
Qed.

(** X1: the environment pass never changes a leaf field whose [env] tag
    names a variable that is unset or empty: wherever the field lies in the
    struct, and whether or not the walk comes to it, it holds after
    [loadFromEnv] what it held before. *)
Theorem loadFromEnv_keeps_unset
    (p : list nat) (v : Value) (w : World) (f : StructField) (x : Value)
    (env : string) :
  field_at p v = Some (f, x) ->
  Kind x <> reflect.Struct ->
  reflect.Lookup (reflect.Tag f) Tags.EnvVarTag = Some env ->
  os.Getenv w env = EmptyString ->
  get p (snd (fst (loadFromEnv v w))) = Some x.
Proof.
  intros Hat Hx Htag Henv.
  assert (snd (fst (loadFromEnv v w)) = snd (fst (load "env" v w))) as ->.
  { unfold loadFromEnv. now destruct (load "env" v w) as [[w1 v1] o1]. }
  apply (load_keeps_skipped _ _ _ _ _ _ Hat Hx).
  intros setValue w' Hw'. unfold chooseValue.
  destruct (decide ("env" = "default")) as [Hbad|_]; [discriminate|].
  destruct (decide ("env" = "env")) as [_|Hbad]; [|congruence].
  rewrite Htag. unfold os.Getenv in *. rewrite Hw', Henv. reflexivity.
Qed.

Lemma loadFromEnv_keeps_unset_witness :
  get [0%nat]
    (snd (fst (loadFromEnv (Examples.named "kept")
                 (Sample.world [("NAME", EmptyString); ("OTHER", "o")]))))
  = Some (VString "kept").
Proof.
  apply (loadFromEnv_keeps_unset [0%nat] (Examples.named "kept")
           (Sample.world [("NAME", EmptyString); ("OTHER", "o")])
           (Sample.field "Name" [("default", "d"); ("env", "NAME")])
           (VString "kept") "NAME");
    first [reflexivity | discriminate].
Defined.

(** X2: the default pass never changes a leaf field that has no [default]
    tag: wherever the field lies, it holds after [loadDefaults] what it held
    before. *)
Theorem loadDefaults_keeps_untagged
    (p : list nat) (v : Value) (w : World) (f : StructField) (x : Value) :
  field_at p v = Some (f, x) ->
  Kind x <> reflect.Struct ->
  reflect.Lookup (reflect.Tag f) Tags.DefaultTag = None ->
  get p (snd (fst (loadDefaults v w))) = Some x.
Proof.
  intros Hat Hx Htag.
  assert (snd (fst (loadDefaults v w)) = snd (fst (load "default" v w))) as ->.
  { unfold loadDefaults. now destruct (load "default" v w) as [[w1 v1] o1]. }
  apply (load_keeps_skipped _ _ _ _ _ _ Hat Hx).
  intros setValue w' _. unfold chooseValue.
  destruct (decide ("default" = "default")) as [_|Hbad]; [|congruence].
  now rewrite Htag.
Qed.

Lemma loadDefaults_keeps_untagged_witness :
  get [1%nat; 0%nat]
    (snd (fst (loadDefaults
                 (VStruct [(Sample.field "Name" [("default", "d")], VString EmptyString);
                           (Sample.field "Inner" [],
                            VStruct [(Sample.field "Port" [("env", "PORT")], VInt 8080)])])
                 (Sample.world []))))
  = Some (VInt 8080).
Proof.
  apply (loadDefaults_keeps_untagged [1%nat; 0%nat] _ (Sample.world [])
           (Sample.field "Port" [("env", "PORT")]) (VInt 8080));
    first [reflexivity | discriminate].
Defined.

(** ** The layout is kept *)

Lemma load_fields_skeleton rec source fs :
  Forall (fun fx => forall w, skeleton (snd (fst (rec (snd fx) w))) = skeleton (snd fx)) fs ->
  forall setValue w,
    map (fun fx => (fst fx, skeleton (snd fx)))
        (loop_fields (load_fields rec source fs setValue w))
    = map (fun fx => (fst fx, skeleton (snd fx))) fs.
Proof.
  induction 1 as [|[f x] fs Hx Hfs IH]; intros setValue w; cbn [load_fields];
    [reflexivity|].
  cbn [snd] in Hx. destruct (decide (Kind x = reflect.Struct)) as [Hk|Hk].
  - specialize (Hx w). destruct (rec x w) as [[w1 x'] o]. cbn [fst snd] in Hx.
    destruct (returned o); cbn [loop_fields map fst snd]; rewrite Hx;
      [now rewrite IH | reflexivity].
  - destruct (chooseValue source f setValue w) as [setValue' skip].
    destruct skip; cbn [loop_fields map fst snd]; [now rewrite IH|].
    pose proof (processValueFromString_zeroOf_result f x setValue' w) as Hz.
    destruct (processValueFromString f x setValue' w) as [[w1 x'] o].
    cbn [fst snd] in Hz.
    assert (skeleton x' = skeleton x) as Hs.
    { rewrite !skeleton_leaf; [exact Hz | exact Hk |].
      rewrite (zeroOf_Kind _ _ Hz). exact Hk. }
    destruct o; cbn [loop_fields map fst snd]; rewrite Hs; try reflexivity.
    now rewrite IH.
Qed.

(** X3: [load] keeps the layout of its argument: after the call, whatever
    its outcome, the value has the same fields with the same names, tags and
    types, at every depth; only contents change. *)
Theorem load_keeps_layout (source : string) (v : Value) (w : World) :
  skeleton (snd (fst (load source v w))) = skeleton v.
Proof.
  revert w. induction v as [v Hv| |fs IH] using Value_fields_ind; intros w.
  - destruct v; try reflexivity. now contradiction Hv.
  - reflexivity.
  - cbn [load fst snd skeleton]. f_equal. now apply load_fields_skeleton.
Qed.

(** ** The default pass *)

(** X4: the default pass assigns to every leaf field it arrives at and that
    has a [default] tag what [processValueFromString] makes of that literal
    (and of nothing else: the value of an earlier field plays no part). *)
Theorem loadDefaults_assigns_default
    (p : list nat) (v : Value) (w w1 : World) (setValue : string)
    (f : StructField) (x : Value) (d : string) :
  arrive "default" p v w = Some (w1, setValue, f, x) ->
  Kind x <> reflect.Struct ->
  reflect.Lookup (reflect.Tag f) Tags.DefaultTag = Some d ->
  get p (snd (fst (loadDefaults v w)))
  = Some (snd (fst (processValueFromString f x d w1))).
Proof.
  intros Harr Hx Htag.
  assert (snd (fst (loadDefaults v w)) = snd (fst (load "default" v w))) as ->.
  { unfold loadDefaults. now destruct (load "default" v w) as [[w0 v0] o0]. }
  rewrite (load_at _ _ _ _ _ _ _ _ Harr Hx). f_equal.
  unfold leaf_after, chooseValue.
  destruct (decide ("default" = "default")) as [_|Hbad]; [|congruence].
  rewrite Htag.
  destruct (decide ("default" = "env")) as [Hbad|_]; [discriminate|reflexivity].
Qed.

Lemma loadDefaults_assigns_default_witness :
  get [1%nat]
    (snd (fst (loadDefaults
                 (VStruct [(Sample.field "Name" [("default", "d")], VString EmptyString);
                           (Sample.field "Port" [("default", "8080")], VInt 0)])
                 (Sample.world []))))
  = Some (VInt 8080).
Proof.
  rewrite (loadDefaults_assigns_default [1%nat] _ (Sample.world []) (Sample.world [])
             "d" (Sample.field "Port" [("default", "8080")]) (VInt 0) "8080");
    first [reflexivity | discriminate].
Defined.

(** ** Errors of an assignment *)

Lemma processValueFromString_Err_inv
    (f : StructField) (field : Value) (value : string) (w w' : World)
    (field' : Value) (e : error) :
  processValueFromString f field value w = (w', field', Err e) ->
  field' = field
  /\ exists format cause, e = Errorf format [inl (reflect.Name f); inr cause].
Proof.
  unfold processValueFromString.
  assert (forall a fld fld' e0, appendAll fld a = (fld', Err e0) -> False) as Happ.
  { induction a as [|y a IH]; intros fld fld' e0; cbn [appendAll]; [discriminate|].
    destruct fld; cbn [SetAppend]; try discriminate. apply IH. }
  destruct (Kind field);
    repeat match goal with
           | |- context [decide ?P] => destruct (decide P)
           | |- context [ioutil.TempDir ?w] =>
               destruct (ioutil.TempDir w) as [[?|?] ?]
           | |- context [regexp.MatchString ?v] => destruct (regexp.MatchString v)
           | |- context [regexp.FindStringSubmatch1 ?v] =>
               destruct (regexp.FindStringSubmatch1 v)
           | |- context [strconv.Atoi ?d] => destruct (strconv.Atoi d)
           | |- context [util.RandomStr ?n ?w] => destruct (util.RandomStr n w)
           | |- context [strconv.ParseBool ?v] => destruct (strconv.ParseBool v)
           | |- context [strconv.ParseInt ?v] => destruct (strconv.ParseInt v)
           | |- context [appendAll ?fld ?a] =>
               let E := fresh "E" in destruct (appendAll fld a) as [? []] eqn:E;
               [| exfalso; eapply Happ; exact E | |]
           | |- context [SetString ?fld ?s] => destruct fld; cbn [SetString]
           | |- context [SetBool ?fld ?s] => destruct fld; cbn [SetBool]
           | |- context [SetInt ?fld ?s] => destruct fld; cbn [SetInt]
           end;
    intros [= <- <- <-] || discriminate; eauto.
Qed.

(** X5: whenever [processValueFromString] returns an error, the field is
    left as it was, and the error is an [fmt.Errorf] whose arguments are the
    name of the field and the cause. *)
Theorem processValueFromString_error
    (f : StructField) (field : Value) (value : string) (w w' : World)
    (field' : Value) (e : error) :
  processValueFromString f field value w = (w', field', Err e) ->
  field' = field
  /\ exists format cause, e = Errorf format [inl (reflect.Name f); inr cause].
Proof. apply processValueFromString_Err_inv. Qed.

Lemma processValueFromString_error_witness :
  exists format cause,
    Errorf "error parsing int value for field %s: %v"
      [inl "Port";
       inr (NumError (strconv.mkNumError "ParseInt" "80a" strconv.ErrSyntax))]
    = Errorf format [inl "Port"; inr cause].
Proof.
  apply (processValueFromString_error (Sample.field "Port" [("env", "PORT")])
           (VInt 7) "80a" (Sample.world []) (Sample.world []) (VInt 7)).
  vm_compute. reflexivity.
Defined.

(** X6: when the assignment of a leaf field of a struct returns an error,
    [load] ends there with that error: that field and every field after it
    in the struct hold what they held before the call. *)
Theorem load_stops_at_error
    (source : string) (fs : list (StructField * Value)) (i : nat)
    (w w1 : World) (setValue : string) (f : StructField) (x : Value)
    (s : string) (w2 : World) (x' : Value) (e : error) :
  arrive source [i] (VStruct fs) w = Some (w1, setValue, f, x) ->
  Kind x <> reflect.Struct ->
  chooseValue source f setValue w1 = (s, false) ->
  processValueFromString f x s w1 = (w2, x', Err e) ->
  exists fields',
    load source (VStruct fs) w = (w2, VStruct fields', Err e)
    /\ forall j, (i <= j)%nat -> fields' !! j = fs !! j.
Proof.
  intros Harr Hx Hchoose Hproc.
  cbn [arrive] in Harr.
  destruct (loop_outcome (load_fields (load source) source (take i fs) EmptyString w))
    eqn:Hpre; try discriminate.
  destruct (fs !! i) as [[f0 x0]|] eqn:Hi; [|discriminate].
  injection Harr as <- <- <- <-.
  destruct (processValueFromString_Err_inv _ _ _ _ _ _ _ Hproc) as [-> _].
  set (r := load_fields (load source) source (take i fs) EmptyString w) in *.
  exists (loop_fields r ++ (f0, x0) :: drop (S i) fs). split.
  - assert (load_fields (load source) source fs EmptyString w
            = mkLoop w2 s (loop_fields r ++ (f0, x0) :: drop (S i) fs) (Err e))
      as Hall.
    { rewrite <- (take_drop_middle fs i (f0, x0) Hi) at 1.
      rewrite load_fields_app. cbn zeta. fold r. rewrite Hpre.
      cbn [load_fields].
      destruct (decide (Kind x0 = reflect.Struct)); [contradiction|].
      rewrite Hchoose, Hproc. reflexivity. }
    cbn [load]. rewrite Hall. reflexivity.
  - intros j Hj.
    pose proof (load_fields_length (load source) source (take i fs) EmptyString w) as Hlen.
    fold r in Hlen. rewrite length_take in Hlen.
    pose proof (lookup_lt_Some _ _ _ Hi) as Hlt.
    rewrite lookup_app_r by lia.
    rewrite <- (drop_S fs (f0, x0) i Hi).
    rewrite lookup_drop. f_equal. lia.
Qed.

Lemma load_stops_at_error_witness :
  snd (fst (load "default"
              (VStruct [(Sample.field "Debug" [("default", "maybe")], VBool false);
                        (Sample.field "Name" [("default", "d")], VString "n")])
              (Sample.world [])))
  = VStruct [(Sample.field "Debug" [("default", "maybe")], VBool false);
             (Sample.field "Name" [("default", "d")], VString "n")].
Proof.
  destruct (load_stops_at_error "default"
              [(Sample.field "Debug" [("default", "maybe")], VBool false);
               (Sample.field "Name" [("default", "d")], VString "n")]
              0 (Sample.world []) (Sample.world []) EmptyString
              (Sample.field "Debug" [("default", "maybe")]) (VBool false)
              "maybe" (Sample.world []) (VBool false)
              (Errorf "error parsing bool value for field %s: %v"
                 [inl "Debug";
                  inr (NumError (strconv.mkNumError "ParseBool" "maybe"
                                   strconv.ErrSyntax))])
              eq_refl ltac:(discriminate) eq_refl eq_refl)
    as (fields' & Hload & Hkeep).
  rewrite Hload. cbn [fst snd]. f_equal.
  apply list_eq. intros j. apply Hkeep. lia.
Defined.

(** ** What the passes do to the world *)

Lemma counters_advance_refl w : counters_advance w w.
Proof. split; lia. Qed.

Lemma counters_advance_trans w1 w2 w3 :
  counters_advance w1 w2 -> counters_advance w2 w3 -> counters_advance w1 w3.
Proof. unfold counters_advance. lia. Qed.

Lemma processValueFromString_counters f field value w :
  counters_advance w (fst (fst (processValueFromString f field value w))).
Proof.
  unfold processValueFromString.
  destruct (Kind field);
    repeat match goal with
           | |- context [decide ?P] => destruct (decide P)
           | |- context [regexp.MatchString ?v] => destruct (regexp.MatchString v)
           | |- context [regexp.FindStringSubmatch1 ?v] =>
               destruct (regexp.FindStringSubmatch1 v)
           | |- context [strconv.Atoi ?d] => destruct (strconv.Atoi d)
           | |- context [strconv.ParseBool ?v] => destruct (strconv.ParseBool v)
           | |- context [strconv.ParseInt ?v] => destruct (strconv.ParseInt v)
           | |- context [appendAll ?fld ?a] => destruct (appendAll fld a)
           | |- context [SetString ?fld ?s] => destruct (SetString fld s)
           | |- context [SetBool ?fld ?s] => destruct (SetBool fld s)
           | |- context [SetInt ?fld ?s] => destruct (SetInt fld s)
           end;
    try apply counters_advance_refl.
  - unfold ioutil.TempDir. destruct (tempdir_results w (tempdir_calls w));
      [destruct (SetString _ _)|]; split; cbn; lia.
  - unfold util.RandomStr. destruct (SetString _ _). split; cbn; lia.
Qed.

Lemma load_fields_counters rec source fs :
  Forall (fun fx => forall w, counters_advance w (fst (fst (rec (snd fx) w)))) fs ->
  forall setValue w,
    counters_advance w (loop_world (load_fields rec source fs setValue w)).
Proof.
  induction 1 as [|[f x] fs Hx Hfs IH]; intros setValue w; cbn [load_fields].
  - apply counters_advance_refl.
  - cbn [snd] in Hx. destruct (decide (Kind x = reflect.Struct)).
    + specialize (Hx w). destruct (rec x w) as [[w1 x'] o]. cbn [fst] in Hx.
      destruct (returned o); cbn [loop_world]; [|exact Hx].
      eapply counters_advance_trans; [exact Hx | apply IH].
    + destruct (chooseValue source f setValue w) as [setValue' skip].
      destruct skip; cbn [loop_world]; [apply IH|].
      pose proof (processValueFromString_counters f x setValue' w) as Hp.
      destruct (processValueFromString f x setValue' w) as [[w1 x'] o].
      cbn [fst] in Hp.
      destruct o; cbn [loop_world]; try exact Hp.
      eapply counters_advance_trans; [exact Hp | apply IH].
Qed.

Lemma load_counters source v :
  forall w, counters_advance w (fst (fst (load source v w))).
Proof.
  induction v as [v Hv| |fs IH] using Value_fields_ind; intros w.
  - destruct v; try apply counters_advance_refl. now contradiction Hv.
  - apply counters_advance_refl.
  - cbn [load fst]. now apply load_fields_counters.
Qed.

Section World_after.

Context {libs : Libraries}.

(** X7: [IntoObject] never changes the environment, the working directory,
    the files or the bundle, whatever its arguments and its outcome: the
    world after the call differs from the one before at most in the number
    of [ioutil.TempDir] calls and of random numbers drawn, and neither
    number decreases. *)
Theorem IntoObject_world
    (object : Object) (configs : list string) (customConfig : string)
    (w : World) :
  same_outside w (fst (fst (IntoObject object configs customConfig w)))
  /\ counters_advance w (fst (fst (IntoObject object configs customConfig w))).
Proof.
  assert (forall src v w0 w1 v1 o1,
            load src v w0 = (w1, v1, o1) ->
            same_outside w0 w1 /\ counters_advance w0 w1) as Hload.
  { intros src v w0 w1 v1 o1 E.
    pose proof (load_outside src v w0) as H1.
    pose proof (load_counters src v w0) as H2.
    rewrite E in H1, H2. auto. }
  destruct object as [|v|v]; cbn [IntoObject].
  - split; [apply same_outside_refl | apply counters_advance_refl].
  - destruct (decide _); cbn [fst];
      (split; [apply same_outside_refl | apply counters_advance_refl]).
  - unfold loadLayers, loadDefaults, loadFromEnv.
    destruct (load "default" v w) as [[w1 v1] o1] eqn:E1.
    destruct (Hload _ _ _ _ _ _ E1) as [Hs1 Hc1].
    destruct o1; cbn [returned]; try (cbn [fst]; now split).
    + destruct (loadConfigs configs v1 w1) as [v2 o2].
      destruct o2; try (cbn [fst]; now split).
      destruct (decide (customConfig = EmptyString)).
      * destruct (load "env" v2 w1) as [[w4 v4] o4] eqn:E4.
        destruct (Hload _ _ _ _ _ _ E4) as [Hs4 Hc4].
        destruct o4; cbn [returned fst];
          (split; [eapply same_outside_trans | eapply counters_advance_trans]; eauto).
      * destruct (loadYAMLFromFile v2 customConfig w1) as [v3 o3].
        destruct o3; try (cbn [fst]; now split).
        destruct (load "env" v3 w1) as [[w4 v4] o4] eqn:E4.
        destruct (Hload _ _ _ _ _ _ E4) as [Hs4 Hc4].
        destruct o4; cbn [returned fst];
          (split; [eapply same_outside_trans | eapply counters_advance_trans]; eauto).
    + destruct (loadConfigs configs v1 w1) as [v2 o2].
      destruct o2; try (cbn [fst]; now split).
      destruct (decide (customConfig = EmptyString)).
      * destruct (load "env" v2 w1) as [[w4 v4] o4] eqn:E4.
        destruct (Hload _ _ _ _ _ _ E4) as [Hs4 Hc4].
        destruct o4; cbn [returned fst];
          (split; [eapply same_outside_trans | eapply counters_advance_trans]; eauto).
      * destruct (loadYAMLFromFile v2 customConfig w1) as [v3 o3].
        destruct o3; try (cbn [fst]; now split).
        destruct (load "env" v3 w1) as [[w4 v4] o4] eqn:E4.
        destruct (Hload _ _ _ _ _ _ E4) as [Hs4 Hc4].
        destruct o4; cbn [returned fst];
          (split; [eapply same_outside_trans | eapply counters_advance_trans]; eauto).
Qed.

End World_after.

(** ** Defaults without directives *)

Lemma processValueFromString_plain_world f field value w :
  plain value = true ->
  fst (fst (processValueFromString f field value w)) = w.
Proof.
  unfold plain. intros Hp. apply andb_true_iff in Hp as [Htmp Hrnd].
  apply negb_true_iff in Htmp, Hrnd.
  apply bool_decide_eq_false in Htmp.
  unfold processValueFromString. rewrite Hrnd.
  destruct (Kind field);
    repeat match goal with
           | |- context [decide ?P] => destruct (decide P)
           | |- context [strconv.ParseBool ?v] => destruct (strconv.ParseBool v)
           | |- context [strconv.ParseInt ?v] => destruct (strconv.ParseInt v)
           | |- context [appendAll ?fld ?a] => destruct (appendAll fld a)
           | |- context [SetString ?fld ?s] => destruct (SetString fld s)
           | |- context [SetBool ?fld ?s] => destruct (SetBool fld s)
           | |- context [SetInt ?fld ?s] => destruct (SetInt fld s)
           end;
    try reflexivity; contradiction.
Qed.

Lemma load_fields_plain_world rec fs :
  Forall (fun fx => Kind (snd fx) = reflect.Struct ->
                    plainDefaults (snd fx) = true ->
                    forall w, fst (fst (rec (snd fx) w)) = w) fs ->
  plainDefaults (VStruct fs) = true ->
  forall setValue w,
    loop_world (load_fields rec "default" fs setValue w) = w.
Proof.
  induction 1 as [|[f x] fs Hx Hfs IH]; intros Hplain setValue w;
    cbn [load_fields]; [reflexivity|].
  cbn [plainDefaults forallb fst snd] in Hplain.
  apply andb_true_iff in Hplain as [Hhere Hrest].
  specialize (IH Hrest). cbn [snd] in Hx.
  destruct (decide (Kind x = reflect.Struct)) as [Hk|Hk].
  - assert (plainDefaults x = true) as Hpx by (destruct x; auto).
    specialize (Hx Hk Hpx w). destruct (rec x w) as [[w1 x'] o].
    cbn [fst] in Hx. subst w1.
    destruct (returned o); cbn [loop_world]; [apply IH | reflexivity].
  - unfold chooseValue.
    destruct (decide ("default" = "default")) as [_|Hbad]; [|congruence].
    destruct (reflect.Lookup (reflect.Tag f) Tags.DefaultTag) as [d|] eqn:Htag;
      [|cbn [loop_world]; apply IH].
    destruct (decide ("default" = "env")) as [Hbad|_]; [discriminate|].
    assert (plain d = true) as Hd by (destruct x; auto; now contradiction Hk).
    pose proof (processValueFromString_plain_world f x d w Hd) as Hw.
    destruct (processValueFromString f x d w) as [[w1 x'] o].
    cbn [fst] in Hw. subst w1.
    destruct o; cbn [loop_world]; try reflexivity. apply IH.
Qed.

(** X8: when no [default] tag of the struct, at any depth, is the
    temporary-directory sentinel or matches the randomized-string pattern,
    the default pass leaves the world exactly as it was: it creates no
    directory and draws no random number. *)
Theorem loadDefaults_plain_world (v : Value) (w : World) :
  plainDefaults v = true ->
  fst (fst (loadDefaults v w)) = w.
Proof.
  intros Hplain.
  assert (fst (fst (loadDefaults v w)) = fst (fst (load "default" v w))) as ->.
  { unfold loadDefaults. now destruct (load "default" v w) as [[w1 v1] o1]. }
  revert Hplain w.
  induction v as [v Hv| |fs IH] using Value_fields_ind; intros Hplain w.
  - destruct v; try reflexivity. now contradiction Hv.
  - reflexivity.
  - cbn [load fst]. apply load_fields_plain_world; [|exact Hplain].
    eapply Forall_impl; [exact IH|]. intros [f x] Hx _ Hpx. cbn [snd] in *. auto.
Qed.

Lemma loadDefaults_plain_world_witness :
  fst (fst (loadDefaults
              (VStruct [(Sample.field "Name" [("default", "d")], VString EmptyString);
                        (Sample.field "Inner" [],
                         VStruct [(Sample.field "Port" [("default", "80")], VInt 0)])])
              (Sample.world [])))
  = Sample.world [].
Proof. apply loadDefaults_plain_world. vm_compute. reflexivity. Defined.

(** ** Arrays and slices of other types *)

(** X9: for an array field, and for a slice field whose elements cannot
    hold a string, the empty value is accepted and changes nothing, while
    any non-empty value makes [reflect.Append] panic. *)
Theorem processValueFromString_array
    (f : StructField) (k : reflect.Kind) (value : string) (w : World) :
  k = reflect.Array \/ k = reflect.Slice ->
  exists o,
    processValueFromString f (VOpaque k) value w = (w, VOpaque k, o)
    /\ (value = EmptyString -> o = Nil)
    /\ (value <> EmptyString -> exists what, o = Panic what).
Proof.
  intros Hk. unfold processValueFromString. cbn [Kind].
  assert ((if decide (value = EmptyString) then (w, VOpaque k, Nil)
           else let '(field', o) := appendAll (VOpaque k) (strings.Split_comma value) in
                (w, field', o))
          = (w, VOpaque k,
             if decide (value = EmptyString) then Nil
             else Panic "reflect: call of reflect.Append on a Value that is no slice of strings"))
    as Hcase.
  { destruct (decide (value = EmptyString)); [reflexivity|].
    pose proof (Split_comma_nonempty value) as Hne.
    destruct (strings.Split_comma value) as [|y a]; [congruence | reflexivity]. }
  destruct Hk as [-> | ->]; rewrite Hcase; eexists; (split; [reflexivity|]);
    destruct (decide (value = EmptyString)); split; intros; eauto; congruence.
Qed.

Lemma processValueFromString_array_witness :
  exists o,
    processValueFromString (Sample.field "Ports" [("env", "PORTS")])
      (VOpaque reflect.Array) "80,81" (Sample.world [("PORTS", "80,81")])
    = (Sample.world [("PORTS", "80,81")], VOpaque reflect.Array, o)
    /\ ("80,81" = EmptyString -> o = Nil)
    /\ ("80,81" <> EmptyString -> exists what, o = Panic what).
Proof.
  apply processValueFromString_array. left. reflexivity.
Defined.

(** ** Integers *)

(** [ParseInt]/[Atoi] on a run of digits, and on one with a minus sign. *)
Lemma parseInt_digits (fn s : string) :
  Bytes.all_digits s = true -> s <> EmptyString ->
  strconv.parseInt fn s
  = (if Bytes.decimal s <? 2 ^ 63 then inl (Bytes.decimal s)
     else inr (strconv.mkNumError fn s strconv.ErrRange))
  /\ strconv.parseInt fn (String "-" s)
     = (if Bytes.decimal s <=? 2 ^ 63 then inl (- Bytes.decimal s)
        else inr (strconv.mkNumError fn (String "-" s) strconv.ErrRange)).
Proof.
  intros Hs Hne. destruct s as [|c s]; [congruence|].
  pose proof Hs as Hs'. simpl in Hs'. apply andb_true_iff in Hs' as [Hc _].
  assert (Ascii.eqb c "+" = false /\ Ascii.eqb c "-" = false) as [Hp Hm].
  { destruct (is_digit_digit c Hc) as (d & E & _). unfold Bytes.digit in E.
    destruct (Ascii.eqb_spec c "+") as [->|_]; [discriminate|].
    destruct (Ascii.eqb_spec c "-") as [->|_]; [discriminate|]. auto. }
  pose proof (ParseUint_loop_digits (String c s) 0 Hs
                ltac:(unfold strconv.maxUint64; lia)) as Hu.
  fold (Bytes.decimal (String c s)) in Hu.
  pose proof (decimal_from_ge (String c s) 0 ltac:(lia)) as Hge.
  fold (Bytes.decimal (String c s)) in Hge.
  unfold strconv.maxUint64 in Hu.
  split.
  - unfold strconv.parseInt. rewrite Hp, Hm. cbn [orb negb andb].
    unfold strconv.ParseUint. rewrite Hu.
    destruct (Z.leb_spec (Bytes.decimal (String c s)) (2 ^ 64 - 1)) as [H64|H64].
    + destruct (Z.leb_spec (2 ^ 63) (Bytes.decimal (String c s)));
        destruct (Z.ltb_spec (Bytes.decimal (String c s)) (2 ^ 63)); try lia; reflexivity.
    + destruct (Z.ltb_spec (Bytes.decimal (String c s)) (2 ^ 63)); [lia | reflexivity].
  - unfold strconv.parseInt.
    change (Ascii.eqb "-" "-") with true. change (Ascii.eqb "-" "+") with false.
    cbn [orb negb andb].
    unfold strconv.ParseUint. rewrite Hu.
    destruct (Z.leb_spec (Bytes.decimal (String c s)) (2 ^ 64 - 1)) as [H64|H64].
    + destruct (Z.ltb_spec (2 ^ 63) (Bytes.decimal (String c s)));
        destruct (Z.leb_spec (Bytes.decimal (String c s)) (2 ^ 63)); try lia; reflexivity.
    + destruct (Z.leb_spec (Bytes.decimal (String c s)) (2 ^ 63)); [lia | reflexivity].
Qed.

(** X10: an [int] or [int64] field (either of the two) assigned from a
    non-empty run of decimal digits holds the number they denote when it is
    below 2^63, and with a leading minus sign its negation when the number
    is at most 2^63; beyond that range, and on the empty string, the call
    returns the error of [strconv.ParseInt] under the field's name and
    leaves the field. *)
Theorem processValueFromString_int
    (f : StructField) (mk : Z -> Value) (old : Z) (N : string) (w : World) :
  mk = VInt \/ mk = VInt64 ->
  Bytes.all_digits N = true -> N <> EmptyString ->
  let parse_error value cause :=
    Err (Errorf "error parsing int value for field %s: %v"
           [inl (reflect.Name f);
            inr (NumError (strconv.mkNumError "ParseInt" value cause))]) in
  (processValueFromString f (mk old) N w
   = if Bytes.decimal N <? 2 ^ 63 then (w, mk (Bytes.decimal N), Nil)
     else (w, mk old, parse_error N strconv.ErrRange))
  /\ (processValueFromString f (mk old) (String "-" N) w
      = if Bytes.decimal N <=? 2 ^ 63 then (w, mk (- Bytes.decimal N), Nil)
        else (w, mk old, parse_error (String "-" N) strconv.ErrRange))
  /\ processValueFromString f (mk old) EmptyString w
     = (w, mk old, parse_error EmptyString strconv.ErrSyntax).
Proof.
  intros Hmk HN Hne parse_error.
  destruct (parseInt_digits "ParseInt" N HN Hne) as [Hpos Hneg].
  destruct Hmk as [-> | ->];
    unfold processValueFromString, strconv.ParseInt; cbn [Kind];
    rewrite Hpos, Hneg; (split; [|split]);
    first [ destruct (Bytes.decimal N <? 2 ^ 63); reflexivity
          | destruct (Bytes.decimal N <=? 2 ^ 63); reflexivity
          | reflexivity ].
Qed.

Lemma processValueFromString_int_witness :
  processValueFromString (Sample.field "Port" [("env", "PORT")]) (VInt 1)
    "0080" (Sample.world [])
  = (Sample.world [], VInt 80, Nil)
  /\ processValueFromString (Sample.field "Port" [("env", "PORT")]) (VInt 1)
       "-12" (Sample.world [])
     = (Sample.world [], VInt (- 12), Nil)
  /\ processValueFromString (Sample.field "Size" [("env", "SIZE")]) (VInt64 1)
       "9223372036854775807" (Sample.world [])
     = (Sample.world [], VInt64 9223372036854775807, Nil)
  /\ processValueFromString (Sample.field "Size" [("env", "SIZE")]) (VInt64 1)
       "-9223372036854775808" (Sample.world [])
     = (Sample.world [], VInt64 (- 9223372036854775808), Nil).
Proof.
  destruct (processValueFromString_int (Sample.field "Port" [("env", "PORT")])
              VInt 1 "0080" (Sample.world [])
              (or_introl eq_refl) eq_refl ltac:(discriminate)) as (H1 & _ & _).
  destruct (processValueFromString_int (Sample.field "Port" [("env", "PORT")])
              VInt 1 "12" (Sample.world [])
              (or_introl eq_refl) eq_refl ltac:(discriminate)) as (_ & H2 & _).
  destruct (processValueFromString_int (Sample.field "Size" [("env", "SIZE")])
              VInt64 1 "9223372036854775807" (Sample.world [])
              (or_intror eq_refl) eq_refl ltac:(discriminate)) as (H3 & _ & _).
  destruct (processValueFromString_int (Sample.field "Size" [("env", "SIZE")])
              VInt64 1 "9223372036854775808" (Sample.world [])
              (or_intror eq_refl) eq_refl ltac:(discriminate)) as (_ & H4 & _).
  repeat split; assumption.
Defined.

(** ** Ending the process, and overlays that cannot be read *)

Lemma processValueFromString_no_exit f field value w w' field' code :
  processValueFromString f field value w <> (w', field', Exit code).
Proof.
  unfold processValueFromString.
  assert (forall a fld fld' c, appendAll fld a <> (fld', Exit c)) as Happ.
  { induction a as [|y a IH]; intros fld fld' c; cbn [appendAll]; [discriminate|].
    destruct fld; cbn [SetAppend]; try discriminate. apply IH. }
  destruct (Kind field);
    repeat match goal with
           | |- context [decide ?P] => destruct (decide P)
           | |- context [ioutil.TempDir ?w] =>
               destruct (ioutil.TempDir w) as [[?|?] ?]
           | |- context [regexp.MatchString ?v] => destruct (regexp.MatchString v)
           | |- context [regexp.FindStringSubmatch1 ?v] =>
               destruct (regexp.FindStringSubmatch1 v)
           | |- context [strconv.Atoi ?d] => destruct (strconv.Atoi d)
           | |- context [util.RandomStr ?n ?w] => destruct (util.RandomStr n w)
           | |- context [strconv.ParseBool ?v] => destruct (strconv.ParseBool v)
           | |- context [strconv.ParseInt ?v] => destruct (strconv.ParseInt v)
           | |- context [appendAll ?fld ?a] =>
               let E := fresh "E" in destruct (appendAll fld a) as [? []] eqn:E;
               [| | | exfalso; eapply Happ; exact E]
           | |- context [SetString ?fld ?s] => destruct fld; cbn [SetString]
           | |- context [SetBool ?fld ?s] => destruct fld; cbn [SetBool]
           | |- context [SetInt ?fld ?s] => destruct fld; cbn [SetInt]
           end;
    discriminate.
Qed.

Lemma load_fields_no_exit rec source fs :
  Forall (fun fx => forall w w' v' code, rec (snd fx) w <> (w', v', Exit code)) fs ->
  forall setValue w code,
    loop_outcome (load_fields rec source fs setValue w) <> Exit code.
Proof.
  induction 1 as [|[f x] fs Hx Hfs IH]; intros setValue w code; cbn [load_fields];
    [discriminate|].
  cbn [snd] in Hx. destruct (decide (Kind x = reflect.Struct)).
  - specialize (Hx w). destruct (rec x w) as [[w1 x'] o].
    destruct o; cbn [returned loop_outcome]; try apply IH; try discriminate.
    now contradiction (Hx w1 x' code0).
  - destruct (chooseValue source f setValue w) as [setValue' skip].
    destruct skip; cbn [loop_outcome]; [apply IH|].
    pose proof (processValueFromString_no_exit f x setValue' w) as Hp.
    destruct (processValueFromString f x setValue' w) as [[w1 x'] o].
    destruct o; cbn [loop_outcome]; try apply IH; try discriminate.
    now contradiction (Hp w1 x' code0).
Qed.

Lemma load_no_exit source v :
  forall w w' v' code, load source v w <> (w', v', Exit code).
Proof.
  induction v as [v Hv| |fs IH] using Value_fields_ind; intros w w' v' code.
  - destruct v; try discriminate. now contradiction Hv.
  - discriminate.
  - cbn [load]. intros [= _ _ Hout].
    now apply (load_fields_no_exit (load source) source fs IH EmptyString w code).
Qed.

Section Overlay_failures.

Context {libs : Libraries}.

Lemma loadConfigs_no_exit configs :
  forall v w v' code, loadConfigs configs v w <> (v', Exit code).
Proof.
  induction configs as [|c configs IH]; intros v w v' code; [discriminate|].
  cbn [loadConfigs]. unfold loadYAMLFromConfigs, unmarshal.
  destruct (pkger.Open_ReadAll w _) as [data|[err|err]]; try discriminate.
  destruct (yaml_Unmarshal data v) as [v1 [err|]]; [discriminate | apply IH].
Qed.

(** X11: [IntoObject] ends the process in one situation only: a custom
    overlay is asked for and [os.Getwd] fails; the exit code is then 1
    ([log.Fatalf]).  Every other failure comes back as an error or a panic. *)
Theorem IntoObject_exit
    (object : Object) (configs : list string) (customConfig : string)
    (w w' : World) (object' : Object) (code : Z) :
  IntoObject object configs customConfig w = (w', object', Exit code) ->
  code = 1 /\ customConfig <> EmptyString
  /\ exists err, os.Getwd w = inr err.
Proof.
  destruct object as [|v|v]; cbn [IntoObject]; [discriminate| |].
  { destruct (decide _); discriminate. }
  unfold loadLayers.
  pose proof (loadDefaults_outside v w) as Hout.
  unfold loadDefaults in *.
  pose proof (load_no_exit "default" v w) as Hd.
  destruct (load "default" v w) as [[w1 v1] o1]. cbn [fst] in Hout.
  destruct Hout as (_ & Hcwd & _).
  assert (forall v3 w4 v4 o4, loadFromEnv v3 w1 = (w4, v4, o4) ->
                              (w4, ObjPtr v4, o4) <> (w', object', Exit code)) as Henv.
  { intros v3 w4 v4 o4 E [= -> _ ->]. unfold loadFromEnv in E.
    pose proof (load_no_exit "env" v3 w1) as He.
    destruct (load "env" v3 w1) as [[wa va] oa].
    destruct oa; cbn in E; try discriminate.
    injection E as -> -> ->. now contradiction (He w' v4 code). }
  assert (forall v2,
            match (if decide (customConfig = EmptyString) then (w1, v2, Nil)
                   else match loadYAMLFromFile v2 customConfig w1 with
                        | (v3, Err err) =>
                            (w1, v3,
                             Err (Errorf "error loading custom config from YAML: %v"
                                    [inr err]))
                        | (v3, o) => (w1, v3, o)
                        end) with
            | (w3, v3, Nil) =>
                match loadFromEnv v3 w3 with
                | (w4, v4, Err err) =>
                    (w4, ObjPtr v4,
                     Err (Errorf "error loading config from environment: %v" [inr err]))
                | (w4, v4, o) => (w4, ObjPtr v4, o)
                end
            | (w3, v3, o) => (w3, ObjPtr v3, o)
            end = (w', object', Exit code) ->
            code = 1 /\ customConfig <> EmptyString
            /\ exists err, os.Getwd w = inr err) as Hcustom.
  { intros v2. destruct (decide (customConfig = EmptyString)) as [Hc|Hc].
    - destruct (loadFromEnv v2 w1) as [[w4 v4] o4] eqn:E.
      specialize (Henv _ _ _ _ E). destruct o4; congruence.
    - unfold loadYAMLFromFile, os.Getwd, unmarshal. rewrite Hcwd.
      destruct (cwd w) as [dir|err].
      + destruct (filepath_Abs _) as [path|err]; [|discriminate].
        destruct (ioutil.ReadFile w1 _) as [data|err]; [|discriminate].
        destruct (yaml_Unmarshal data v2) as [v3 [err|]]; [discriminate|].
        destruct (loadFromEnv v3 w1) as [[w4 v4] o4] eqn:E.
        specialize (Henv _ _ _ _ E). destruct o4; congruence.
      + intros [= _ _ <-]. eauto. }
  destruct o1; cbn [returned].
  - pose proof (loadConfigs_no_exit configs v1 w1) as Hc.
    destruct (loadConfigs configs v1 w1) as [v2 o2].
    destruct o2; try discriminate; [apply Hcustom|].
    intros [= _ _ ->]. now contradiction (Hc v2 code).
  - pose proof (loadConfigs_no_exit configs v1 w1) as Hc.
    destruct (loadConfigs configs v1 w1) as [v2 o2].
    destruct o2; try discriminate; [apply Hcustom|].
    intros [= _ _ ->]. now contradiction (Hc v2 code).
  - discriminate.
  - intros [= _ _ ->]. now contradiction (Hd w1 v1 code).
Qed.

End Overlay_failures.

Lemma IntoObject_exit_witness :
  1 = 1 /\ "custom.yaml" <> EmptyString
  /\ exists err, os.Getwd Stranded.world = inr err.
Proof.
  apply (IntoObject_exit (libs := Sample.libs) (ObjPtr (Examples.named EmptyString))
           ["a"] "custom.yaml" Stranded.world
           (fst (fst (loadDefaults (Examples.named EmptyString) Stranded.world)))
           (ObjPtr (Examples.named "A")) 1).
  vm_compute. reflexivity.
Defined.

Section Overlay_documents.

Context {libs : Libraries}.

(** X12: when a bundled overlay is found but its document does not
    unmarshal, or cannot be read, [IntoObject] fails with that error wrapped
    once (the overlay's name is not in it); the target is what the earlier
    passes and the failed merge left, and neither a later overlay nor the
    environment pass runs. *)
Theorem IntoObject_overlay_unreadable
    (v : Value) (configs : list string) (customConfig : string) (w : World)
    (w1 : World) (v1 v2 : Value) (pre : list string) (name : string)
    (post : list string) :
  loadDefaults v w = (w1, v1, Nil) ->
  configs = pre ++ name :: post ->
  loadConfigs pre v1 w1 = (v2, Nil) ->
  (forall data v3 err,
     packaged w !! filepath_Join "/configs" (name +:+ ".yaml") = Some (inl data) ->
     yaml_Unmarshal data v2 = (v3, Some err) ->
     IntoObject (ObjPtr v) configs customConfig w
     = (w1, ObjPtr v3, Err (Errorf "error loading config from YAML: %v" [inr err])))
  /\ (forall err,
        packaged w !! filepath_Join "/configs" (name +:+ ".yaml") = Some (inr err) ->
        IntoObject (ObjPtr v) configs customConfig w
        = (w1, ObjPtr v2, Err (Errorf "error loading config from YAML: %v" [inr err]))).
Proof.
  intros Hdef -> Hpre.
  pose proof (loadDefaults_outside v w) as Hout. rewrite Hdef in Hout.
  destruct Hout as (_ & _ & _ & Hpack & _). cbn [fst] in Hpack.
  split.
  - intros data v3 err Hdoc Hyaml.
    unfold IntoObject, loadLayers. rewrite Hdef.
    rewrite loadConfigs_app_eq, Hpre. cbn [loadConfigs].
    unfold loadYAMLFromConfigs, pkger.Open_ReadAll, unmarshal.
    rewrite Hpack, Hdoc, Hyaml. reflexivity.
  - intros err Hdoc.
    unfold IntoObject, loadLayers. rewrite Hdef.
    rewrite loadConfigs_app_eq, Hpre. cbn [loadConfigs].
    unfold loadYAMLFromConfigs, pkger.Open_ReadAll.
    rewrite Hpack, Hdoc. reflexivity.
Qed.

(** X13: a custom overlay is read from [filepath.Clean] of the absolute form
    of its name joined to the working directory, and merged into what the
    default pass and all the bundled overlays left; when the merge succeeds
    the environment pass starts from its result, and when the document does
    not unmarshal [IntoObject] fails with that error wrapped, before the
    environment pass. *)
Theorem IntoObject_custom_overlay
    (v : Value) (configs : list string) (customConfig : string) (w : World)
    (w1 : World) (v1 v2 : Value) (dir path data : string) :
  loadDefaults v w = (w1, v1, Nil) ->
  loadConfigs configs v1 w1 = (v2, Nil) ->
  customConfig <> EmptyString ->
  os.Getwd w = inl dir ->
  filepath_Abs (filepath_Join dir customConfig) = inl path ->
  files w !! filepath_Clean path = Some (inl data) ->
  IntoObject (ObjPtr v) configs customConfig w
  = match yaml_Unmarshal data v2 with
    | (v3, None) =>
        let '(w4, v4, o4) := loadFromEnv v3 w1 in (w4, ObjPtr v4, o4)
    | (v3, Some err) =>
        (w1, ObjPtr v3,
         Err (Errorf "error loading custom config from YAML: %v" [inr err]))
    end.
Proof.
  intros Hdef Hload Hcustom Hwd Habs Hfile.
  pose proof (loadDefaults_outside v w) as Hout. rewrite Hdef in Hout.
  destruct Hout as (_ & Hcwd & Hfiles & _). cbn [fst] in Hcwd, Hfiles.
  unfold IntoObject, loadLayers. rewrite Hdef, Hload.
  destruct (decide (customConfig = EmptyString)); [contradiction|].
  unfold loadYAMLFromFile, os.Getwd, ioutil.ReadFile, unmarshal in *.
  rewrite Hcwd, Hwd, Habs, Hfiles, Hfile.
  destruct (yaml_Unmarshal data v2) as [v3 [err|]]; [reflexivity|].
  pose proof (loadFromEnv_no_error v3 w1) as Hno.
  destruct (loadFromEnv v3 w1) as [[w4 v4] o4].
  destruct o4; try reflexivity. now contradiction (Hno w4 v4 e).
Qed.

End Overlay_documents.

Lemma IntoObject_overlay_unreadable_witness :
  snd (IntoObject (libs := Sample.libs) (ObjPtr (Examples.named EmptyString))
         ["a"; "bad"; "b"] EmptyString Stranded.world)
  = Err (Errorf "error loading config from YAML: %v"
           [inr (LibError "yaml: malformed document")])
  /\ snd (IntoObject (libs := Sample.libs) (ObjPtr (Examples.named EmptyString))
            ["torn"] EmptyString Stranded.world)
     = Err (Errorf "error loading config from YAML: %v"
              [inr (LibError "unexpected EOF")]).
Proof.
  set (w1 := fst (fst (loadDefaults (Examples.named EmptyString) Stranded.world))).
  assert (loadDefaults (Examples.named EmptyString) Stranded.world
          = (w1, Examples.named "d", Nil)) as Hdef by (vm_compute; reflexivity).
  destruct (IntoObject_overlay_unreadable (libs := Sample.libs)
              (Examples.named EmptyString) ["a"; "bad"; "b"] EmptyString
              Stranded.world w1 _ (Examples.named "A") ["a"] "bad" ["b"]
              Hdef eq_refl ltac:(vm_compute; reflexivity)) as [Hbad _].
  rewrite (Hbad "!" (Examples.named "A") (LibError "yaml: malformed document"))
    by (vm_compute; reflexivity).
  destruct (IntoObject_overlay_unreadable (libs := Sample.libs)
              (Examples.named EmptyString) ["torn"] EmptyString
              Stranded.world w1 _ (Examples.named "d") [] "torn" []
              Hdef eq_refl eq_refl) as [_ Htorn].
  rewrite (Htorn (LibError "unexpected EOF")) by (vm_compute; reflexivity).
  split; reflexivity.
Defined.

Lemma IntoObject_custom_overlay_witness :
  (let '(_, object, o) :=
     IntoObject (libs := Sample.libs) (ObjPtr (Examples.named EmptyString))
       ["a"; "b"] "custom.yaml" (Sample.world []) in (object, o))
  = (ObjPtr (Examples.named "custom"), Nil).
Proof.
  set (w1 := fst (fst (loadDefaults (Examples.named EmptyString) (Sample.world [])))).
  assert (loadDefaults (Examples.named EmptyString) (Sample.world [])
          = (w1, Examples.named "d", Nil)) as Hdef by (vm_compute; reflexivity).
  rewrite (IntoObject_custom_overlay (libs := Sample.libs)
             (Examples.named EmptyString) ["a"; "b"] "custom.yaml" (Sample.world [])
             w1 (Examples.named "d") (Examples.named "B") "/work"
             "/work/custom.yaml" "custom" Hdef)
    by (vm_compute; first [reflexivity | discriminate]).
  vm_compute. reflexivity.
Defined.

Lemma IntoObject_error_is_overlay_witness :
  exists cause,
    Errorf "error loading config from YAML: %v"
      [inr (Errorf "error trying to open config %s: %v"
              [inl "missing"; inr pkger.ErrNotExist])]
    = Errorf "error loading config from YAML: %v" [inr cause]
    \/ Errorf "error loading config from YAML: %v"
         [inr (Errorf "error trying to open config %s: %v"
                 [inl "missing"; inr pkger.ErrNotExist])]
       = Errorf "error loading custom config from YAML: %v" [inr cause].
Proof.
  apply (IntoObject_error_is_overlay (libs := Sample.libs)
           (Examples.debug false) ["missing"] EmptyString (Sample.world [])
           (fst (fst (loadDefaults (Examples.debug false) (Sample.world []))))
           (ObjPtr (Examples.debug false))).
  vm_compute. reflexivity.
Defined.

(** ** Pointer targets *)


Section Pointer_targets.

Context {libs : Libraries}.


End Pointer_targets.


